(** * Carpet-plot row ordering and rendering of [mri_tools/viz/fmriplots_modAT.py]

    A shallow embedding of [fmricarpetplot], [confoundplot] and
    [fMRIPlot.plot].

    Conventions of the embedding.
    - A 3-D segmentation volume is the list of its labels in C order; a 4-D
      functional volume is the list, in the same order, of the time series
      of its voxels.  Boolean-mask indexing [arr[segmentation > 0]] keeps
      that order.
    - Labels and ranks are integers ([Z]).  The rank array is created with
      [np.zeros_like(seg)]; ranks are small counters and are not wrapped.
    - Sampling intervals, display ranges and tick labels are exact rationals
      ([Qc]); the ['%.02f'] formatting of tick labels is not modelled.
    - [np.argsort] and [nilearn.signal.clean] are library calls: they are
      variables of the embedding, and every theorem states the part of
      their contract it relies on. *)

From stdpp Require Import base list sorting gmap numbers strings.
From Stdlib Require Import ZArith Qcanon Lia.
From Stdlib Require Qcabs Lqa Qreduction.

Local Open Scope Z_scope.

(** ** Exceptions and fallible results *)

Inductive exn : Set :=
  | IndexError   (* boolean index / fancy index out of bounds *)
  | ValueError   (* reshape of an empty array with an unknown dimension *)
  | NameError.   (* read of a local variable that was never assigned *)

Inductive result (T : Type) : Type :=
  | Ok (v : T)
  | Raise (e : exn).
Arguments Ok {T} v.
Arguments Raise {T} e.

Global Instance result_ret : MRet result := λ _ v, Ok v.
Global Instance result_bind : MBind result := λ _ _ k r,
  match r with
  | Ok v => k v
  | Raise e => Raise e
  end.

Global Instance result_fmap : FMap result := λ _ _ f r,
  match r with
  | Ok v => Ok (f v)
  | Raise e => Raise e
  end.

Definition of_option {T} (e : exn) (o : option T) : result T :=
  match o with
  | Some v => Ok v
  | None => Raise e
  end.

(** ** Array primitives *)

(** [arr[segmentation > 0]]: the entries of [arr] at the voxels whose label
    is positive.  NumPy refuses a mask whose shape differs from the indexed
    axes. *)
Definition labelled {T} (segmentation : list Z) (arr : list T) : list (Z * T) :=
  filter (λ p, 0 < p.1) (zip segmentation arr).

Definition mask_pos {T} (segmentation : list Z) (arr : list T) : result (list T) :=
  if decide (length segmentation = length arr)
  then Ok (labelled segmentation arr).*2
  else Raise IndexError.

(** [np.unique]: the distinct values, ascending. *)
Definition np_unique (l : list Z) : list Z := merge_sort Z.le (remove_dups l).

(** [a[order]] along the first axis. *)
Definition take {T} (order : list nat) (a : list T) : result (list T) :=
  of_option IndexError (mapM (λ i, a !! i) order).

(** [r[::2]]. *)
Fixpoint stride2 {T} (r : list T) : list T :=
  match r with
  | x :: _ :: r' => x :: stride2 r'
  | _ => r
  end.

(** [range(0, n)[::k]] for [k >= 1]. *)
Definition range_step (n k : nat) : list nat :=
  (λ j, j * k)%nat <$> seq 0 ((n + k - 1) / k)%nat.

(** ** Label bands and ranks (lines 126-141) *)

Definition cort_gm (seg_labels : list Z) : list Z :=
  filter (λ l, 100 < l ∧ l < 200) seg_labels.
Definition deep_gm (seg_labels : list Z) : list Z :=
  filter (λ l, 30 < l ∧ l < 100) seg_labels.
Definition cerebellum : list Z := [255].
Definition wm_csf (seg_labels : list Z) : list Z :=
  filter (λ l, l < 10) seg_labels.

(** The list bound to [seg_labels] at line 134. *)
Definition band_labels (seg : list Z) : list Z :=
  let seg_labels := np_unique seg in
  cort_gm seg_labels ++ deep_gm seg_labels ++ cerebellum ++ wm_csf seg_labels.

(** [newsegm[seg == _lab] = label_id] *)
Definition assign (seg : list Z) (_lab label_id : Z) (newsegm : list Z) : list Z :=
  zip_with (λ s n, if decide (s = _lab) then label_id else n) seg newsegm.

(** The loop of lines 138-140, threading [newsegm] and [label_id]. *)
Fixpoint relabel (seg : list Z) (seg_labels : list Z) (label_id : Z)
    (newsegm : list Z) : list Z :=
  match seg_labels with
  | [] => newsegm
  | _lab :: rest => relabel seg rest (label_id + 1) (assign seg _lab label_id newsegm)
  end.

Definition zeros_like (seg : list Z) : list Z := replicate (length seg) 0.

Definition newsegm_of (seg : list Z) : list Z :=
  relabel seg (band_labels seg) 0 (zeros_like seg).

(** The value the loop leaves at a voxel labelled [s], starting from [cur]:
    the pointwise reading of [relabel], used to state its properties. *)
Fixpoint rank_at (seg_labels : list Z) (label_id cur s : Z) : Z :=
  match seg_labels with
  | [] => cur
  | _lab :: rest =>
      rank_at rest (label_id + 1) (if decide (s = _lab) then label_id else cur) s
  end.

(** The four bands, as the comparisons of lines 130-133 delimit them for a
    positive label. *)
Inductive band : Set := CortGM | DeepGM | Cerebellum | WmCsf.

Global Instance band_eq_dec : EqDecision band.
Proof. solve_decision. Defined.

Definition band_of (l : Z) : option band :=
  if decide (100 < l ∧ l < 200) then Some CortGM
  else if decide (30 < l ∧ l < 100) then Some DeepGM
  else if decide (l = 255) then Some Cerebellum
  else if decide (l < 10) then Some WmCsf
  else None.

(** The band of a label in the words of the specification, for comparison
    with [band_of]: cortical GM 100-199, deep GM 30-99, cerebellum exactly
    255, WM/CSF below 10. *)
Definition spec_band_of (l : Z) : option band :=
  if decide (100 ≤ l ≤ 199) then Some CortGM
  else if decide (30 ≤ l ≤ 99) then Some DeepGM
  else if decide (l = 255) then Some Cerebellum
  else if decide (l < 10) then Some WmCsf
  else None.

Definition band_index (b : band) : nat :=
  match b with CortGM => 0 | DeepGM => 1 | Cerebellum => 2 | WmCsf => 3 end.

Definition in_band (l : Z) : Prop := is_Some (band_of l).

(** The position of a label's band in the fixed display order. *)
Definition label_band_index (l : Z) : nat := from_option band_index 0%nat (band_of l).

(** [segmentation[segmentation > 0]] *)
Definition positive_labels (segmentation : list Z) : list Z :=
  filter (λ l, 0 < l) segmentation.

(** A sort is stable when indices holding equal keys keep their order. *)
Definition stable (keys : list Z) (order : list nat) : Prop :=
  ∀ a b i j, order !! a = Some i → order !! b = Some j →
    keys !! i = keys !! j → (i < j)%nat → (a < b)%nat.

(** The documented contract of [np.argsort(keys)] with its default
    [kind='quicksort']: the indices of [keys], arranged so that the keys
    they select are ascending.  The default kind is not a stable sort, so
    nothing is promised about indices with equal keys. *)
Definition is_argsort (keys : list Z) (order : list nat) : Prop :=
  order ≡ₚ seq 0 (length keys) ∧
  StronglySorted Z.le (omap (λ i, keys !! i) order).

Global Instance is_argsort_dec keys order : Decision (is_argsort keys order).
Proof. unfold is_argsort. apply _. Defined.

(** A reference [argsort]: insertion of the indices from the last to the
    first, each before the first index holding a key that is not smaller.
    It shows that the contract can be met. *)
Fixpoint argsort_insert (keys : list Z) (i : nat) (l : list nat) : list nat :=
  match l with
  | [] => [i]
  | j :: l' =>
      if decide (default 0 (keys !! i) ≤ default 0 (keys !! j))
      then i :: l
      else j :: argsort_insert keys i l'
  end.

Definition argsort_ins (keys : list Z) : list nat :=
  foldr (argsort_insert keys) [] (seq 0 (length keys)).

(** ** Two-dimensional arrays

    [rows a] are the rows and [shape1 a] is [a.shape[1]]; [a.shape[0]] is
    [length (rows a)].  The column count is carried beside the rows because
    an array without rows still has one. *)
Record arr2 (A : Type) : Type := Arr2 { shape1 : nat; rows : list (list A) }.
Arguments Arr2 {A} shape1 rows.
Arguments shape1 {A} a.
Arguments rows {A} a.

Definition wf_arr2 {A} (a : arr2 A) : Prop :=
  Forall (λ r, length r = shape1 a) (rows a).

Definition same_shape {A} (a b : arr2 A) : Prop :=
  shape1 a = shape1 b ∧ length (rows a) = length (rows b).

(** [a.reshape(-1, n)] of an array whose last axis already has length [n]:
    the unknown dimension cannot be inferred when [n = 0]. *)
Definition reshape_rows {A} (rs : list (list A)) (n : nat) : result (arr2 A) :=
  if decide (n = 0%nat) then Raise ValueError else Ok (Arr2 n rs).

(** [a[order, :]] *)
Definition take_rows {A} (order : list nat) (a : arr2 A) : result (arr2 A) :=
  rs ← take order (rows a); Ok (Arr2 (shape1 a) rs).

(** [a[:, ::2]] *)
Definition stride2_cols {A} (a : arr2 A) : arr2 A :=
  Arr2 (Nat.div2 (S (shape1 a))) (stride2 <$> rows a).

Definition Qc_of_nat (n : nat) : Qc := Qc_of_Z (Z.of_nat n).

(** ** [fmricarpetplot] *)

(** What the call hands to the plotting library. *)
Record carpet (A : Type) : Type := Carpet {
  strip : list Z;            (* ax0.imshow(newsegm[order, np.newaxis], ...) *)
  strip_vmax : Z;            (* vmax=len(seg_labels) - 1 *)
  image : arr2 A;            (* ax1.imshow(data, ...) *)
  carpet_cmap : string;
  vmin : Qc;
  vmax : Qc;
  xticks : list nat;
  xlabel : string;
  xticklabels : list Qc      (* before ['%.02f'] formatting *)
}.
Arguments Carpet {A}.
Arguments strip {A} c.
Arguments strip_vmax {A} c.
Arguments image {A} c.
Arguments carpet_cmap {A} c.
Arguments vmin {A} c.
Arguments vmax {A} c.
Arguments xticks {A} c.
Arguments xlabel {A} c.
Arguments xticklabels {A} c.

(** The values bound by lines 119-141. *)
Record ordering (A : Type) : Type := Ordering {
  o_data : arr2 A;
  o_detrended : arr2 A;
  o_seg : list Z;
  o_newsegm : list Z;
  o_order : list nat
}.
Arguments Ordering {A}.
Arguments o_data {A} o.
Arguments o_detrended {A} o.
Arguments o_seg {A} o.
Arguments o_newsegm {A} o.
Arguments o_order {A} o.

Section carpet.
Context {A : Type}.
(** [clean tr data] stands for [clean(data.T, t_r=tr).T]. *)
Variable clean : Qc → arr2 A → arr2 A.
Variable argsort : list Z → list nat.

(** Lines 119-141. *)
Definition carpet_order (func_data : arr2 A) (segmentation : list Z) (tr : Qc)
    : result (ordering A) :=
  let ntsteps := shape1 func_data in
  masked ← mask_pos segmentation (rows func_data);
  data ← reshape_rows masked ntsteps;
  let detrended := clean tr data in
  seg ← mask_pos segmentation segmentation;
  let newsegm := newsegm_of seg in
  let order := argsort newsegm in
  Ok (Ordering data detrended seg newsegm order).

(** Lines 167-176: the image, the colour map and the binding, if any, of
    the local variable [long_cutoff]. *)
Definition carpet_image (stat : bool) (o : ordering A)
    : result (arr2 A * string * option nat) :=
  if negb stat then
    let long_cutoff := 800%nat in
    data ← (if decide (long_cutoff < shape1 (o_detrended o))%nat
            then stride2_cols <$> take_rows (o_order o) (o_detrended o)
            else take_rows (o_order o) (o_detrended o));
    Ok (data, "gray", Some long_cutoff)
  else
    data ← take_rows (o_order o) (o_data o);
    Ok (data, "Spectral_r", None).

(** Lines 190-203. *)
Definition carpet_ticks (notr : bool) (tr : Qc) (o : ordering A) (data : arr2 A)
    (long_cutoff : option nat) : result (list nat * string * list Qc) :=
  let interval := (((shape1 data + 1) / 10) `max` 1)%nat in
  let xticks := range_step (shape1 data) interval in
  if notr then
    Ok (xticks, "Frame #", Qc_of_nat <$> xticks)
  else
    let labels := (λ t, tr * Qc_of_nat t)%Qc <$> xticks in
    long_cutoff ← of_option NameError long_cutoff;
    let labels :=
      if decide (long_cutoff < shape1 (o_detrended o))%nat
      then (λ t, t * 2)%Qc <$> labels else labels in
    Ok (xticks, "time (s)", labels).

Definition fmricarpetplot (func_data : arr2 A) (segmentation : list Z)
    (stat : bool) (map_range : option (Qc * Qc)) (tr : option Qc)
    : result (carpet A) :=
  let notr := bool_decide (tr = None) in
  let tr := default 1%Qc tr in
  o ← carpet_order func_data segmentation tr;
  strip ← take (o_order o) (o_newsegm o);
  '(data, cmap, long_cutoff) ← carpet_image stat o;
  let map_range := default (Qc_of_Z (-2), Qc_of_Z 2) map_range in
  '(xticks, xlabel, labels) ← carpet_ticks notr tr o data long_cutoff;
  Ok (Carpet strip (Z.of_nat (length (band_labels (o_seg o))) - 1) data cmap
             map_range.1 map_range.2 xticks xlabel labels).
End carpet.

(** ** [confoundplot] and [fMRIPlot.plot]

    A confound descriptor is the [kwargs] dictionary that [plot] unpacks
    into [confoundplot].  Its [cutoff] entry is a Python list: the
    dictionary holds a reference to it, and [**kwargs] passes that same
    reference on.  The list objects live in a store indexed by location.
    Axis cosmetics, y-limits and the placement of annotations are left out;
    every line the function draws is recorded. *)

Definition loc := nat.

Inductive draw : Type :=
  | DrawSpikes (ts_z : list (list Qc)) (title : option string) (zscored : bool)
  | DrawSeries (tseries : list Qc)
  | DrawThreshold (thr : Qc) (linestyle : string).

Record plt : Type := Plt {
  heap : gmap loc (list Qc);     (* the list objects reachable by the caller *)
  drawn : list draw              (* plotting-library state *)
}.

Record descriptor : Type := Descriptor {
  d_name : option string;
  d_units : option string;
  d_normalize : option bool;     (* absent: the default [normalize=True] *)
  d_cutoff : option loc          (* absent or [None]: [cutoff=None] *)
}.

Definition Qcsum (l : list Qc) : Qc := foldr Qcplus 0%Qc l.
Definition Qcmean (l : list Qc) : Qc := (Qcsum l / Qc_of_nat (length l))%Qc.

(** Lines 359-488, for a call that returns.  [cutoff.insert(0, mean)] acts
    on the list object the argument refers to; with [cutoff=None] the list
    is a fresh local one.  A call on an empty series does not return: see
    [confoundplot_checked]. *)
Definition confoundplot (tseries : list Qc) (tr : option Qc) (normalize : bool)
    (cutoff : option loc) (σ : plt) : plt :=
  let tr := default 1%Qc tr in
  let tseries := if normalize then (λ x, x / tr)%Qc <$> tseries else tseries in
  let mean := Qcmean tseries in
  let '(h, lines) :=
    match cutoff with
    | None => (heap σ, [mean])
    | Some l =>
        let h := alter (cons mean) l (heap σ) in
        (h, default [] (h !! l))
    end in
  Plt h (drawn σ ++ DrawSeries tseries ::
           imap (λ i thr, DrawThreshold thr (if decide (i = 0%nat) then "-" else ":")) lines).

Record fMRIPlot (A : Type) : Type := FMRIPlot {
  func_data : arr2 A;
  seg_data : list Z;
  stat_map : bool;
  map_range : option (Qc * Qc);
  tr : option Qc;
  confounds : list (list Qc * descriptor);
  spikes : list (list (list Qc) * option string * bool)
}.
Arguments FMRIPlot {A}.
Arguments func_data {A} f.
Arguments seg_data {A} f.
Arguments stat_map {A} f.
Arguments map_range {A} f.
Arguments tr {A} f.
Arguments confounds {A} f.
Arguments spikes {A} f.

Section plot.
Context {A : Type}.
Variable clean : Qc → arr2 A → arr2 A.
Variable argsort : list Z → list nat.

Definition add_confounds (self : fMRIPlot A) (data : list Qc) (kwargs : descriptor)
    : fMRIPlot A :=
  FMRIPlot (func_data self) (seg_data self) (stat_map self) (map_range self)
           (tr self) (confounds self ++ [(data, kwargs)]) (spikes self).

(** Lines 77-104, for panels that all return.  An exception of the carpet
    call leaves the store as the confound loop made it.  The confound
    loop that stops at a failing panel is [confound_loop]. *)
Definition plot (self : fMRIPlot A) (σ : plt) : plt * result (carpet A) :=
  let σ := foldl (λ σ '(tsz, name, iszs),
                    Plt (heap σ) (drawn σ ++ [DrawSpikes tsz name iszs]))
                 σ (spikes self) in
  let σ := foldl (λ σ '(tseries, kwargs),
                    confoundplot tseries (tr self)
                      (default true (d_normalize kwargs)) (d_cutoff kwargs) σ)
                 σ (confounds self) in
  (σ, fmricarpetplot clean argsort (func_data self) (seg_data self)
        (stat_map self) (map_range self) (tr self)).
End plot.

(** ** [fMRIPlot.__init__], [add_spikes] and the grid of [plot] *)

(** Lines 26-69 on decoded arrays, for [add_gs_cf=False] and
    [seg_cf_labels={}] (the defaults): [zoom_t] is the last zoom of the
    header of the functional image and [mask_data] the decoded mask. *)
Definition fMRIPlot_init {A} (func_data : arr2 A) (zoom_t : Qc) (mask_data : list Z)
    (seg : option (list Z)) (tr : option Qc) (stat : bool)
    (map_range : option (Qc * Qc)) : fMRIPlot A :=
  FMRIPlot func_data
    (match seg with
     | None => (λ m, 2 * m) <$> mask_data
     | Some seg_data => seg_data
     end)
    stat map_range
    (if decide (tr = None ∧ stat = false) then Some zoom_t else tr)
    [] [].

Definition add_spikes {A} (self : fMRIPlot A) (tsz : list (list Qc))
    (title : option string) (zscored : bool) : fMRIPlot A :=
  FMRIPlot (func_data self) (seg_data self) (stat_map self) (map_range self)
           (tr self) (confounds self) (spikes self ++ [(tsz, title, zscored)]).

(** The grid of lines 78-101: the height ratios and, in drawing order,
    the grid row each panel is put in.  A confound panel carries the index
    of its colour in the palette. *)
Inductive panel : Set :=
  | SpikesPanel
  | ConfoundPanel (color : nat)
  | CarpetPanel.

Definition plot_layout {A} (self : fMRIPlot A) : list nat * list (nat * panel) :=
  let nconfounds := length (confounds self) in
  let nspikes := length (spikes self) in
  let nrows := (1 + nconfounds + nspikes)%nat in
  let height_ratios := replicate (nrows - 1) 1%nat ++ [4%nat] in
  let '(grid_id, ps) :=
    foldl (λ '(grid_id, ps) _, ((grid_id + 1)%nat, ps ++ [(grid_id, SpikesPanel)]))
          (0%nat, []) (spikes self) in
  let '(grid_id, ps) :=
    foldl (λ '(grid_id, ps) '(i, _),
             ((grid_id + 1)%nat, ps ++ [(grid_id, ConfoundPanel i)]))
          (grid_id, ps) (imap pair (confounds self)) in
  (height_ratios, ps ++ [((nrows - 1)%nat, CarpetPanel)]).

(** ** Parts of [confoundplot] and [spikesplot] *)

(** [confoundplot], lines 385-386: the x ticks. *)
Definition confound_xticks (ntsteps : nat) : list nat :=
  let interval := ((ntsteps / 10) `max` ((ntsteps / 5) `max` 1))%nat in
  range_step ntsteps interval.

(** [confoundplot], lines 399-403: the y label before it is wrapped, if
    there is one. *)
Definition confound_var_label (name units : option string) (notr normalize : bool)
    : option string :=
  let no_scale := notr || negb normalize in
  match name with
  | None => None
  | Some name =>
      Some (match units with
            | None => name
            | Some units =>
                name +:+ (if no_scale then " [" +:+ units +:+ "]"
                          else " [" +:+ units +:+ "/s]")
            end)
  end.

(** [confoundplot], lines 457-467: the vertical offset of the label of
    threshold [thr], given the thresholds [prev] listed before it. *)
Definition y_off_step (thr yrange : Qc) (y_off : Qc * Qc) (pth : Qc) : Qc * Qc :=
  let inc := Qcabs.Qcabs (thr - pth) in
  if decide (inc < yrange)%Qc then
    let factor := ((- (inc / yrange) + 1) ^ 2)%Qc in
    if decide (thr - pth < 0)%Qc
    then ((y_off.1 - factor * Qc_of_Z 20)%Qc, y_off.2)
    else (y_off.1, (y_off.2 + factor * Qc_of_Z 20)%Qc)
  else y_off.

Definition annotation_offset (thr yrange : Qc) (prev : list Qc) : Qc :=
  let y_off := foldl (y_off_step thr yrange) (0%Qc, 0%Qc) prev in
  if decide (y_off.2 < Qcabs.Qcabs y_off.1)%Qc then y_off.1 else y_off.2.

(** [spikesplot], lines 243-282: the x limits, ticks, label and tick
    labels.  [tr] is rebound to 1 when it is [None], before the test of
    line 277. *)
Definition spikes_xaxis (ntsteps : nat) (tr : option Qc) (hide_x : bool)
    : (Z * Z) * list Z * option string * option (list Qc) :=
  let tr : option Qc := Some (default 1%Qc tr) in
  let last := Z.of_nat ntsteps - 1 in
  let xticks :=
    if negb hide_x
    then (Z.of_nat <$> range_step (Z.to_nat last) 20) ++ [last]
    else [] in
  let '(xlabel, labels) :=
    if negb hide_x then
      match tr with
      | None => (Some "time (frame #)", None)
      | Some tr => (Some "time (s)", Some ((λ t, tr * Qc_of_Z t)%Qc <$> xticks))
      end
    else (None, None) in
  ((0, last), xticks, xlabel, labels).

(** ** [confoundplot] with its failure on an empty series *)

(** Line 421 takes [.min()] of the series: for an empty series NumPy raises
    ValueError there, after the series has been handed to [ax_ts.plot]
    (line 381) and before [cutoff.insert] (line 439) and every threshold
    line.  For a series that is not empty the call is [confoundplot]. *)
Definition confoundplot_checked (tseries : list Qc) (tr : option Qc) (normalize : bool)
    (cutoff : option loc) (σ : plt) : plt * result unit :=
  if decide (tseries = [])
  then (Plt (heap σ) (drawn σ ++ [DrawSeries []]), Raise ValueError)
  else (confoundplot tseries tr normalize cutoff σ, Ok ()).

(** The confound loop of [plot] (lines 95-99): the exception of a panel
    ends the loop, and the panels after it are not drawn. *)
Fixpoint confound_loop (tr : option Qc) (confounds : list (list Qc * descriptor))
    (σ : plt) : plt * result unit :=
  match confounds with
  | [] => (σ, Ok ())
  | (tseries, kwargs) :: rest =>
      match confoundplot_checked tseries tr (default true (d_normalize kwargs))
              (d_cutoff kwargs) σ with
      | (σ', Ok _) => confound_loop tr rest σ'
      | (σ', Raise e) => (σ', Raise e)
      end
  end.

Global Instance descriptor_eq_dec : EqDecision descriptor.
Proof. solve_decision. Defined.


(** ** Concrete inputs used by the examples below *)

(** A stand-in for [clean] that returns its input. *)
Definition clean_id {A} (_ : Qc) (a : arr2 A) : arr2 A := a.

(** Two voxels, 801 time points. *)
Definition long_volume : arr2 Z := Arr2 801 [replicate 801 0; replicate 801 1].

(** One voxel, 50 time points. *)
Definition short_volume : arr2 Z := Arr2 50 [replicate 50 7].

(** A 4x4x4x50 volume whose voxel [i] holds the constant series [i], and a
    segmentation of it with one voxel for each of the labels 5, 255, 150
    and 50. *)
Definition volume_4x4x4x50 : arr2 Z :=
  Arr2 50 ((λ i, replicate 50 (Z.of_nat i)) <$> seq 0 64).
Definition one_voxel_per_band : list Z :=
  replicate 10 0 ++ [5] ++ replicate 20 0 ++ [255; 150] ++ replicate 30 0 ++ [50].


(** A plot with one confound series [1, 3] whose descriptor refers to the
    cutoff list stored at location 0, and a store where that list is [7]. *)
Definition confound_plot : fMRIPlot Z :=
  add_confounds (FMRIPlot short_volume [5] false None None [] [])
    [Qc_of_Z 1; Qc_of_Z 3]
    (Descriptor (Some "FD") None (Some false) (Some 0%nat)).
Definition confound_store : plt := Plt {[ 0%nat := [Qc_of_Z 7] ]} [].

Example np_unique_ex : np_unique [5; 150; 5; 255; 50; 150] = [5; 50; 150; 255].
Proof. vm_compute. reflexivity. Qed.

Example newsegm_ex : newsegm_of [5; 150; 5; 255; 50; 20] = [3; 0; 3; 2; 1; 0].
Proof. vm_compute. reflexivity. Qed.

Example argsort_ex : argsort_ins [3; 0; 3; 2; 1; 0] = [1; 5; 4; 3; 0; 2]%nat.
Proof. vm_compute. reflexivity. Qed.

Example is_argsort_ex : is_argsort [3; 0; 3; 2; 1; 0] [1; 5; 4; 3; 0; 2]%nat.
Proof. apply (bool_decide_unpack _). vm_compute. reflexivity. Qed.

(** ** Facts about the array primitives *)

Lemma mask_pos_self segmentation :
  mask_pos segmentation segmentation = Ok (positive_labels segmentation).
Proof.
  unfold mask_pos, labelled, positive_labels. rewrite decide_True by done. f_equal.
  induction segmentation as [|l ls IH]; [done|].
  cbn [zip zip_with]. rewrite !filter_cons. cbn [fst].
  destruct (decide (0 < l)); cbn; by rewrite IH.
Qed.

Lemma labelled_fst {T} segmentation (arr : list T) :
  length segmentation = length arr →
  (labelled segmentation arr).*1 = positive_labels segmentation.
Proof.
  unfold labelled, positive_labels. revert arr.
  induction segmentation as [|l ls IH]; intros [|x arr] Hlen; try done.
  cbn [zip zip_with]. rewrite !filter_cons. cbn [fst].
  destruct (decide (0 < l)); cbn; rewrite IH; auto.
Qed.

Lemma np_unique_elem l x : x ∈ np_unique l ↔ x ∈ l.
Proof. unfold np_unique. by rewrite merge_sort_Permutation, elem_of_remove_dups. Qed.

Lemma np_unique_NoDup l : NoDup (np_unique l).
Proof. unfold np_unique. rewrite merge_sort_Permutation. apply NoDup_remove_dups. Qed.

Lemma np_unique_sorted l : StronglySorted Z.le (np_unique l).
Proof. apply StronglySorted_merge_sort; apply _. Qed.

Lemma take_Ok {T} order (a : list T) rs :
  take order a = Ok rs ↔ Forall2 (λ i r, a !! i = Some r) order rs.
Proof.
  unfold take. rewrite <-mapM_Some.
  destruct (mapM _ order); cbn; split; congruence.
Qed.

Lemma take_omap {T} order (a : list T) :
  Forall (λ i, i < length a)%nat order →
  take order a = Ok (omap (λ i, a !! i) order).
Proof.
  intros H. apply take_Ok. induction H as [|i order Hi _ IH]; cbn; [constructor|].
  destruct (lookup_lt_is_Some_2 a i Hi) as [r Hr]. rewrite Hr. by constructor.
Qed.

Lemma take_length {T} order (a : list T) rs :
  take order a = Ok rs → length rs = length order.
Proof. rewrite take_Ok. intros H. symmetry. by eapply Forall2_length. Qed.

Lemma stride2_lookup {T} (r : list T) j : stride2 r !! j = r !! (2 * j)%nat.
Proof.
  revert j.
  cut ((∀ j, stride2 r !! j = r !! (2 * j)%nat) ∧
       (∀ x j, stride2 (x :: r) !! j = (x :: r) !! (2 * j)%nat)); [by intros []|].
  induction r as [|y r [IH1 IH2]].
  - split; [done|]. intros x [|j]; [done|].
    replace (2 * S j)%nat with (S (S (2 * j))) by lia. done.
  - split; [apply IH2|]. intros x [|j]; [done|].
    replace (2 * S j)%nat with (S (S (2 * j))) by lia. cbn. apply IH1.
Qed.

Lemma stride2_length {T} (r : list T) : length (stride2 r) = Nat.div2 (S (length r)).
Proof.
  cut (length (stride2 r) = Nat.div2 (S (length r)) ∧
       ∀ x, length (stride2 (x :: r)) = Nat.div2 (S (length (x :: r)))); [by intros []|].
  induction r as [|y r [IH1 IH2]].
  - by split.
  - split; [apply IH2|]. intros x. cbn [stride2 length]. by rewrite IH1.
Qed.

(** ** The relabelling loop, voxel by voxel *)

Lemma assign_length seg lab id ns :
  length ns = length seg → length (assign seg lab id ns) = length seg.
Proof. intros H. unfold assign. rewrite length_zip_with. lia. Qed.

Lemma relabel_pointwise seg labels id ns :
  length ns = length seg →
  relabel seg labels id ns = zip_with (λ s n, rank_at labels id n s) seg ns.
Proof.
  revert id ns. induction labels as [|lab rest IH]; intros id ns Hlen; cbn.
  - apply list_eq. intros i. rewrite lookup_zip_with.
    destruct (ns !! i) as [n|] eqn:Hn; [|by destruct (seg !! i)].
    destruct (lookup_lt_is_Some_2 seg i) as [s ->]; [|done].
    apply lookup_lt_Some in Hn. lia.
  - rewrite IH by by apply assign_length.
    apply list_eq. intros i. unfold assign. rewrite !lookup_zip_with.
    destruct (seg !! i) as [s|]; [|done]. cbn.
    by destruct (ns !! i).
Qed.

Lemma newsegm_of_fmap seg :
  newsegm_of seg = rank_at (band_labels seg) 0 0 <$> seg.
Proof.
  unfold newsegm_of, zeros_like. rewrite relabel_pointwise by by rewrite length_replicate.
  apply list_eq. intros i. rewrite lookup_zip_with, list_lookup_fmap.
  destruct (seg !! i) as [s|] eqn:Hs; [|done]. cbn.
  by rewrite lookup_replicate_2 by by eapply lookup_lt_Some.
Qed.

Lemma newsegm_of_length seg : length (newsegm_of seg) = length seg.
Proof. by rewrite newsegm_of_fmap, length_fmap. Qed.

Lemma rank_at_app l1 l2 id cur s :
  rank_at (l1 ++ l2) id cur s =
  rank_at l2 (id + Z.of_nat (length l1)) (rank_at l1 id cur s) s.
Proof.
  revert id cur. induction l1 as [|lab l1 IH]; intros id cur; cbn [rank_at app length].
  - by rewrite Z.add_0_r.
  - rewrite IH. f_equal. lia.
Qed.

Lemma rank_at_notin labels id cur s : s ∉ labels → rank_at labels id cur s = cur.
Proof.
  revert id cur. induction labels as [|lab rest IH]; intros id cur Hs; [done|].
  cbn. apply not_elem_of_cons in Hs as [Hne Hs].
  rewrite decide_False by done. by apply IH.
Qed.

Lemma rank_at_bounds labels id cur s :
  s ∈ labels → id ≤ rank_at labels id cur s < id + Z.of_nat (length labels).
Proof.
  revert id cur. induction labels as [|lab rest IH]; intros id cur Hs.
  { by apply elem_of_nil in Hs. }
  cbn [rank_at length]. destruct (decide (s ∈ rest)) as [Hin|Hnin].
  - specialize (IH (id + 1) (if decide (s = lab) then id else cur) Hin). lia.
  - rewrite rank_at_notin by done.
    apply elem_of_cons in Hs as [->|?]; [|done].
    rewrite decide_True by done. lia.
Qed.

(** ** Membership in the band lists (lines 130-134) *)

Lemma elem_of_cort_gm seg l : l ∈ cort_gm (np_unique seg) ↔ l ∈ seg ∧ 100 < l < 200.
Proof. unfold cort_gm. rewrite list_elem_of_filter, np_unique_elem. tauto. Qed.

Lemma elem_of_deep_gm seg l : l ∈ deep_gm (np_unique seg) ↔ l ∈ seg ∧ 30 < l < 100.
Proof. unfold deep_gm. rewrite list_elem_of_filter, np_unique_elem. tauto. Qed.

Lemma elem_of_wm_csf seg l : l ∈ wm_csf (np_unique seg) ↔ l ∈ seg ∧ l < 10.
Proof. unfold wm_csf. rewrite list_elem_of_filter, np_unique_elem. tauto. Qed.

Lemma elem_of_cerebellum l : l ∈ cerebellum ↔ l = 255.
Proof. unfold cerebellum. by rewrite list_elem_of_singleton. Qed.

Lemma elem_of_positive_labels segmentation l :
  l ∈ positive_labels segmentation ↔ l ∈ segmentation ∧ 0 < l.
Proof. unfold positive_labels. rewrite list_elem_of_filter. tauto. Qed.

Lemma band_of_Some l b :
  band_of l = Some b ↔
  match b with
  | CortGM => 100 < l < 200
  | DeepGM => 30 < l < 100
  | Cerebellum => l = 255
  | WmCsf => l < 10
  end.
Proof.
  unfold band_of. repeat case_decide; destruct b; split; intros; simplify_eq;
    first [done | lia].
Qed.

Lemma band_of_None l :
  band_of l = None ↔ 10 ≤ l ≤ 30 ∨ l = 100 ∨ 200 ≤ l < 255 ∨ 255 < l.
Proof.
  unfold band_of. repeat case_decide; split; intros; simplify_eq; first [done | lia].
Qed.

(** The rank of a label of [seg], band by band: cortical labels occupy the
    first ranks, deep-GM labels the next ones, then label 255, then the
    WM/CSF labels; a label of no band keeps the initial 0. *)
Lemma rank_of_band seg s :
  s ∈ seg →
  let r := rank_at (band_labels seg) 0 0 s in
  let nc := Z.of_nat (length (cort_gm (np_unique seg))) in
  let nd := Z.of_nat (length (deep_gm (np_unique seg))) in
  match band_of s with
  | Some CortGM => 0 ≤ r < nc
  | Some DeepGM => nc ≤ r < nc + nd
  | Some Cerebellum => r = nc + nd
  | Some WmCsf => nc + nd < r
  | None => r = 0
  end.
Proof.
  intros Hs. cbn zeta. unfold band_labels. cbn zeta.
  rewrite !rank_at_app. cbn [cerebellum length rank_at]. 
  pose proof (elem_of_cort_gm seg s) as Hc.
  pose proof (elem_of_deep_gm seg s) as Hd.
  pose proof (elem_of_wm_csf seg s) as Hw.
  destruct (band_of s) as [b|] eqn:Hb.
  - apply band_of_Some in Hb. destruct b.
    + rewrite (rank_at_notin (deep_gm _)) by (rewrite Hd; lia).
      rewrite decide_False by lia.
      rewrite (rank_at_notin (wm_csf _)) by (rewrite Hw; lia).
      assert (s ∈ cort_gm (np_unique seg)) as Hin by (apply Hc; split; [done|lia]).
      pose proof (rank_at_bounds _ 0 0 s Hin). lia.
    + rewrite (rank_at_notin (cort_gm _)) by (rewrite Hc; lia).
      rewrite decide_False by lia.
      rewrite (rank_at_notin (wm_csf _)) by (rewrite Hw; lia).
      assert (s ∈ deep_gm (np_unique seg)) as Hin by (apply Hd; split; [done|lia]).
      pose proof (rank_at_bounds _
                    (0 + Z.of_nat (length (cort_gm (np_unique seg)))) 0 s Hin). lia.
    + rewrite (rank_at_notin (cort_gm _)) by (rewrite Hc; lia).
      rewrite (rank_at_notin (deep_gm _)) by (rewrite Hd; lia).
      rewrite decide_True by done.
      rewrite (rank_at_notin (wm_csf _)) by (rewrite Hw; lia). lia.
    + assert (s ∈ wm_csf (np_unique seg)) as Hin by (apply Hw; split; [done|lia]).
      match goal with |- context [rank_at (wm_csf _) ?i ?c s] =>
        pose proof (rank_at_bounds _ i c s Hin) end. lia.
  - apply band_of_None in Hb.
    rewrite (rank_at_notin (cort_gm _)) by (rewrite Hc; lia).
    rewrite (rank_at_notin (deep_gm _)) by (rewrite Hd; lia).
    rewrite decide_False by lia.
    by rewrite (rank_at_notin (wm_csf _)) by (rewrite Hw; lia).
Qed.

Lemma rank_le_band seg x y :
  x ∈ seg → y ∈ seg → in_band x → in_band y →
  rank_at (band_labels seg) 0 0 x ≤ rank_at (band_labels seg) 0 0 y →
  (label_band_index x ≤ label_band_index y)%nat.
Proof.
  intros Hx Hy [bx Hbx] [bey Hby] Hr.
  pose proof (rank_of_band seg x Hx) as Rx. pose proof (rank_of_band seg y Hy) as Ry.
  cbn zeta in Rx, Ry. unfold label_band_index. rewrite Hbx, Hby in *.
  destruct bx, bey; cbn; lia.
Qed.

(** With one voxel in each band, the label list and the ranks are fixed. *)
Lemma np_unique_of_perm seg l :
  NoDup l → seg ≡ₚ l → np_unique seg = merge_sort Z.le l.
Proof.
  intros Hl Hp. apply (StronglySorted_unique Z.le).
  - apply np_unique_sorted.
  - apply StronglySorted_merge_sort; apply _.
  - unfold np_unique. rewrite !merge_sort_Permutation.
    apply NoDup_Permutation; [apply NoDup_remove_dups|done|].
    intros x. by rewrite elem_of_remove_dups, Hp.
Qed.

Lemma four_labels_rank_inj x y :
  x ∈ [150; 50; 255; 5] → y ∈ [150; 50; 255; 5] →
  rank_at [150; 50; 255; 5] 0 0 x ≤ rank_at [150; 50; 255; 5] 0 0 y →
  rank_at [150; 50; 255; 5] 0 0 y ≤ rank_at [150; 50; 255; 5] 0 0 x → x = y.
Proof.
  rewrite !elem_of_cons, !elem_of_nil.
  intros [->|[->|[->|[->|[]]]]] [->|[->|[->|[->|[]]]]]; cbn; first [done | lia].
Qed.

(** ** What the contract of [argsort] gives *)

Lemma omap_lookup_seq {T} (pre a : list T) :
  omap (λ i, (pre ++ a) !! i) (seq (length pre) (length a)) = a.
Proof.
  revert pre. induction a as [|x a IH]; intros pre; [done|].
  cbn [length seq]. csimpl. rewrite list_lookup_middle by done. f_equal.
  specialize (IH (pre ++ [x])). rewrite <-(assoc_L (++)), length_app in IH.
  cbn in IH. by rewrite Nat.add_1_r in IH.
Qed.

Lemma omap_lookup_perm {T} (a : list T) (order : list nat) :
  order ≡ₚ seq 0 (length a) → omap (λ i, a !! i) order ≡ₚ a.
Proof.
  intros ->. pose proof (omap_lookup_seq [] a) as H. cbn in H. by rewrite H.
Qed.

Lemma omap_lookup_fmap {T U} (f : T → U) (a : list T) (order : list nat) :
  omap (λ i, (f <$> a) !! i) order = f <$> omap (λ i, a !! i) order.
Proof.
  induction order as [|i order IH]; [done|]. cbn.
  rewrite list_lookup_fmap. destruct (a !! i); cbn; by rewrite IH.
Qed.

Lemma is_argsort_range keys order :
  is_argsort keys order → Forall (λ i, i < length keys)%nat order.
Proof.
  intros [Hp _]. rewrite Hp. apply Forall_seq. lia.
Qed.

Lemma is_argsort_length keys order :
  is_argsort keys order → length order = length keys.
Proof. intros [Hp _]. by rewrite Hp, length_seq. Qed.

Lemma is_argsort_take {T} keys order (a : list T) :
  is_argsort keys order → length a = length keys →
  take order a = Ok (omap (λ i, a !! i) order) ∧
  omap (λ i, a !! i) order ≡ₚ a.
Proof.
  intros Hs Hlen. split.
  - apply take_omap. rewrite Hlen. by apply is_argsort_range.
  - apply omap_lookup_perm. rewrite Hlen. apply Hs.
Qed.

Lemma StronglySorted_fmap_inv {T U} (f : T → U) (R : relation U) l :
  StronglySorted R (f <$> l) → StronglySorted (λ x y, R (f x) (f y)) l.
Proof.
  induction l as [|x l IH]; [constructor|]. rewrite fmap_cons.
  intros [Hall Hl]%StronglySorted_cons. constructor; [by apply IH|].
  by rewrite Forall_fmap in Hall.
Qed.

Lemma StronglySorted_weaken {T} (R1 R2 : relation T) l :
  (∀ x y, x ∈ l → y ∈ l → R1 x y → R2 x y) →
  StronglySorted R1 l → StronglySorted R2 l.
Proof.
  induction l as [|x l IH]; intros HR; [constructor|].
  intros [Hall Hl]%StronglySorted_cons. constructor.
  - apply IH; [|done]. intros y z Hy Hz. apply HR; by right.
  - rewrite Forall_forall in Hall |- *. intros y Hy.
    apply HR; [by left|by right|by apply Hall].
Qed.

Lemma sorted_split {T} (f : T → nat) (k : nat) l :
  StronglySorted (λ x y, f x ≤ f y)%nat l →
  ∃ l1 l2, l = l1 ++ l2 ∧ Forall (λ x, f x < k)%nat l1 ∧
           Forall (λ x, k ≤ f x)%nat l2 ∧
           StronglySorted (λ x y, f x ≤ f y)%nat l2.
Proof.
  induction 1 as [|x l Hl IH Hall].
  { exists [], []. repeat split; constructor. }
  destruct (decide (f x < k)%nat) as [Hlt|Hge].
  - destruct IH as (l1 & l2 & -> & H1 & H2 & H3).
    exists (x :: l1), l2. repeat split; [by constructor|done..].
  - exists [], (x :: l). repeat split; [constructor| |by constructor].
    constructor; [lia|]. eapply Forall_impl; [exact Hall|]. cbn. lia.
Qed.

(** The reference [argsort] meets the contract, for every array of keys. *)
Lemma argsort_insert_perm keys i l : argsort_insert keys i l ≡ₚ i :: l.
Proof.
  induction l as [|j l IH]; [done|]. cbn. case_decide; [done|].
  rewrite IH. apply perm_swap.
Qed.

Lemma argsort_insert_sorted keys i l :
  let key i := default 0 (keys !! i) in
  StronglySorted (λ a b, key a ≤ key b) l →
  StronglySorted (λ a b, key a ≤ key b) (argsort_insert keys i l).
Proof.
  intros key. induction 1 as [|j l Hl IH Hall]; cbn.
  { repeat constructor. }
  case_decide as Hle.
  - constructor; [by constructor|]. constructor; [done|].
    eapply Forall_impl; [exact Hall|]. cbn. fold (key i) (key j) in Hle. lia.
  - constructor; [done|]. rewrite argsort_insert_perm.
    constructor; [|done]. fold (key i) (key j) in Hle. lia.
Qed.

Lemma argsort_ins_is_argsort keys : is_argsort keys (argsort_ins keys).
Proof.
  set (key i := default 0 (keys !! i)).
  assert (∀ l, foldr (argsort_insert keys) [] l ≡ₚ l) as Hperm.
  { induction l as [|i l IH]; [done|]. cbn. by rewrite argsort_insert_perm, IH. }
  assert (∀ l, StronglySorted (λ a b, key a ≤ key b)
                 (foldr (argsort_insert keys) [] l)) as Hsort.
  { induction l as [|i l IH]; [constructor|]. cbn. by apply argsort_insert_sorted. }
  split; [apply Hperm|]. unfold argsort_ins.
  assert (Forall (λ i, i < length keys)%nat
            (foldr (argsort_insert keys) [] (seq 0 (length keys)))) as Hr.
  { rewrite Hperm. apply Forall_seq. lia. }
  specialize (Hsort (seq 0 (length keys))).
  induction Hsort as [|i l Hl IH Hall]; [constructor|].
  apply Forall_cons in Hr as [Hi Hr]. cbn.
  destruct (lookup_lt_is_Some_2 keys i Hi) as [x Hx]. rewrite Hx.
  constructor; [by apply IH|].
  rewrite Forall_forall. intros y [j [Hj Hy]]%list_elem_of_omap.
  rewrite Forall_forall in Hall. specialize (Hall j Hj).
  unfold key in Hall. by rewrite Hx, Hy in Hall.
Qed.

Lemma bind_Ok {T U} (v : T) (k : T → result U) : (Ok v ≫= k) = k v.
Proof. reflexivity. Qed.

Lemma labelled_subseteq {T} segmentation (arr : list T) p :
  p ∈ labelled segmentation arr → p ∈ zip segmentation arr ∧ 0 < p.1.
Proof. unfold labelled. rewrite list_elem_of_filter. tauto. Qed.

(** ** Running [fmricarpetplot] *)

Section carpet_facts.
Context {A : Type}.
Variable clean : Qc → arr2 A → arr2 A.
Variable argsort : list Z → list nat.

Lemma carpet_order_inv func_data segmentation tr o :
  carpet_order clean argsort func_data segmentation tr = Ok o →
  let data := Arr2 (shape1 func_data) (labelled segmentation (rows func_data)).*2 in
  let seg := positive_labels segmentation in
  length segmentation = length (rows func_data) ∧ shape1 func_data ≠ 0%nat ∧
  o = Ordering data (clean tr data) seg (newsegm_of seg) (argsort (newsegm_of seg)).
Proof.
  unfold carpet_order. rewrite mask_pos_self. unfold mask_pos, reshape_rows.
  repeat case_decide; cbn; intros; by simplify_eq.
Qed.

Lemma carpet_order_Ok func_data segmentation tr :
  length segmentation = length (rows func_data) → shape1 func_data ≠ 0%nat →
  let data := Arr2 (shape1 func_data) (labelled segmentation (rows func_data)).*2 in
  let seg := positive_labels segmentation in
  carpet_order clean argsort func_data segmentation tr =
  Ok (Ordering data (clean tr data) seg (newsegm_of seg) (argsort (newsegm_of seg))).
Proof.
  intros Hlen Hn. unfold carpet_order. rewrite mask_pos_self.
  unfold mask_pos, reshape_rows. rewrite decide_True by done. cbn.
  by rewrite decide_False.
Qed.

Lemma carpet_order_data_length func_data segmentation tr o :
  carpet_order clean argsort func_data segmentation tr = Ok o →
  length (rows (o_data o)) = length (o_seg o) ∧
  length (o_newsegm o) = length (o_seg o) ∧
  o_seg o = positive_labels segmentation.
Proof.
  intros (Hlen & _ & ->)%carpet_order_inv. cbn.
  rewrite <-(labelled_fst segmentation (rows func_data)) by done.
  by rewrite !length_fmap, newsegm_of_length, length_fmap.
Qed.

Lemma take_rows_Ok order (a : arr2 A) :
  Forall (λ i, i < length (rows a))%nat order →
  take_rows order a = Ok (Arr2 (shape1 a) (omap (λ i, rows a !! i) order)).
Proof. intros H. unfold take_rows. by rewrite take_omap. Qed.

Lemma take_rows_inv order (a b : arr2 A) :
  take_rows order a = Ok b →
  shape1 b = shape1 a ∧ take order (rows a) = Ok (rows b).
Proof.
  unfold take_rows. destruct (take order (rows a)); cbn; intros; by simplify_eq.
Qed.

Lemma carpet_image_rows stat (o : ordering A) img cm lc :
  carpet_image stat o = Ok (img, cm, lc) → length (rows img) = length (o_order o).
Proof.
  unfold carpet_image. destruct stat; cbn [negb]; [|case_decide];
    (destruct (take_rows _ _) as [b|] eqn:Hb; [|done]);
    apply take_rows_inv in Hb as [_ Hb%take_length]; cbn; intros; simplify_eq;
    cbn; by rewrite ?length_fmap.
Qed.

Lemma fmricarpetplot_inv func_data segmentation stat map_range tr c :
  fmricarpetplot clean argsort func_data segmentation stat map_range tr = Ok c →
  ∃ o lc,
    carpet_order clean argsort func_data segmentation (default 1%Qc tr) = Ok o ∧
    take (o_order o) (o_newsegm o) = Ok (strip c) ∧
    carpet_image stat o = Ok (image c, carpet_cmap c, lc) ∧
    (vmin c, vmax c) = default (Qc_of_Z (-2), Qc_of_Z 2) map_range ∧
    carpet_ticks (bool_decide (tr = None)) (default 1%Qc tr) o (image c) lc =
      Ok (xticks c, xlabel c, xticklabels c).
Proof.
  unfold fmricarpetplot.
  destruct (carpet_order _ _ _ _ _) as [o|] eqn:Ho; [cbn|done].
  destruct (take _ _) as [st|] eqn:Hst; [cbn|done].
  destruct (carpet_image _ _) as [[[img cm] lc]|] eqn:Hi; [cbn|done].
  destruct (carpet_ticks _ _ _ _ _) as [[[xt xl] lb]|] eqn:Ht; [cbn|done].
  intros [= <-]. cbn. exists o, lc. by destruct (default _ map_range).
Qed.
End carpet_facts.

Section carpet_runs.
Context {A : Type}.
Variable clean : Qc → arr2 A → arr2 A.
Variable argsort : list Z → list nat.

Lemma carpet_image_raw (o : ordering A) :
  Forall (λ i, i < length (rows (o_detrended o)))%nat (o_order o) →
  let rs := Arr2 (shape1 (o_detrended o))
                 (omap (λ i, rows (o_detrended o) !! i) (o_order o)) in
  carpet_image false o =
  Ok (if decide (800 < shape1 (o_detrended o))%nat then stride2_cols rs else rs,
      "gray", Some 800%nat).
Proof.
  intros H. unfold carpet_image. cbn [negb]. rewrite take_rows_Ok by done.
  by case_decide.
Qed.

Lemma carpet_image_stat (o : ordering A) :
  Forall (λ i, i < length (rows (o_data o)))%nat (o_order o) →
  carpet_image true o =
  Ok (Arr2 (shape1 (o_data o)) (omap (λ i, rows (o_data o) !! i) (o_order o)),
      "Spectral_r", None).
Proof. intros H. unfold carpet_image. cbn [negb]. by rewrite take_rows_Ok. Qed.

(** A call on arrays of matching shapes returns, unless it is a call
    with [stat=True] and a sampling interval. *)
Lemma fmricarpetplot_Ok func_data segmentation stat map_range tr :
  let seg := positive_labels segmentation in
  let data := Arr2 (shape1 func_data) (labelled segmentation (rows func_data)).*2 in
  length segmentation = length (rows func_data) →
  shape1 func_data ≠ 0%nat →
  is_argsort (newsegm_of seg) (argsort (newsegm_of seg)) →
  same_shape (clean (default 1%Qc tr) data) data →
  (stat = true → tr = None) →
  ∃ c, fmricarpetplot clean argsort func_data segmentation stat map_range tr = Ok c.
Proof.
  intros seg data Hlen Hn Hsort [_ Hrows] Hstat. unfold fmricarpetplot.
  rewrite carpet_order_Ok by done. fold seg data. cbn.
  assert (length (rows data) = length (newsegm_of seg)) as Hdata.
  { cbn. rewrite newsegm_of_length. unfold seg.
    rewrite <-(labelled_fst segmentation (rows func_data)) by done.
    by rewrite !length_fmap. }
  destruct (is_argsort_take _ _ (newsegm_of seg) Hsort eq_refl) as [-> _]. cbn.
  pose proof (is_argsort_range _ _ Hsort) as Hrange.
  destruct stat.
  - rewrite carpet_image_stat by (cbn [o_data o_order]; by rewrite Hdata). cbn.
    rewrite (Hstat eq_refl). cbn. eauto.
  - rewrite carpet_image_raw
      by (cbn [o_detrended o_order]; by rewrite Hrows, Hdata). cbn.
    unfold carpet_ticks. destruct tr; cbn; eauto.
Qed.
End carpet_runs.

(** ** The claims about the row ordering *)

Section ordering_claims.
Context {A : Type}.
Variable clean : Qc → arr2 A → arr2 A.
Variable argsort : list Z → list nat.

(** C1, as the code has it: no labelled voxel is dropped.  On arrays of
    matching shapes the voxel-time matrix, the permutation and the
    displayed image all have one row per voxel with a positive label,
    whatever its band; a voxel whose label lies in no band keeps the
    initial rank 0 of [newsegm]. *)
Theorem C1_every_labelled_voxel_kept func_data segmentation stat map_range tr :
  let seg := positive_labels segmentation in
  let data := Arr2 (shape1 func_data) (labelled segmentation (rows func_data)).*2 in
  length segmentation = length (rows func_data) →
  shape1 func_data ≠ 0%nat →
  is_argsort (newsegm_of seg) (argsort (newsegm_of seg)) →
  same_shape (clean (default 1%Qc tr) data) data →
  (stat = true → tr = None) →
  ∃ o c,
    carpet_order clean argsort func_data segmentation (default 1%Qc tr) = Ok o ∧
    fmricarpetplot clean argsort func_data segmentation stat map_range tr = Ok c ∧
    length (rows (o_data o)) = length seg ∧
    o_order o ≡ₚ seq 0 (length seg) ∧
    length (rows (image c)) = length seg ∧
    (∀ i l, seg !! i = Some l → band_of l = None → o_newsegm o !! i = Some 0).
Proof.
  intros seg data Hlen Hn Hsort Hshape Hstat.
  destruct (fmricarpetplot_Ok clean argsort func_data segmentation stat
              map_range tr Hlen Hn Hsort Hshape Hstat) as [c Hc].
  destruct (fmricarpetplot_inv _ _ _ _ _ _ _ _ Hc) as (o & lc & Ho & _ & Hi & _).
  exists o, c. split; [done|]. split; [done|].
  apply carpet_image_rows in Hi.
  destruct (carpet_order_data_length _ _ _ _ _ _ Ho) as (Hd & _ & Hseg).
  apply carpet_order_inv in Ho as (_ & _ & ->).
  cbn [o_data o_order o_newsegm o_seg rows] in *.
  pose proof Hsort as [Hperm _]. rewrite newsegm_of_length in Hperm.
  split; [exact Hd|]. split; [exact Hperm|]. split.
  - rewrite Hi. fold seg. rewrite Hperm. apply length_seq.
  - intros i l Hl Hb. fold seg. rewrite newsegm_of_fmap, list_lookup_fmap, Hl. cbn.
    f_equal. pose proof (rank_of_band seg l) as Hr. cbn zeta in Hr.
    rewrite Hb in Hr. apply Hr. by eapply list_elem_of_lookup_2.
Qed.

(** C3, as the code has it: when every positive label lies in one of
    the four bands as lines 130-133 delimit them (101-199, 31-99, 255,
    1-9), the labels read along the permuted rows form four consecutive
    blocks:
    the cortical-GM voxels, then the deep-GM voxels, then the cerebellum
    voxels, then the WM/CSF voxels, whatever the label values inside a
    band. *)
Theorem C3_bands_contiguous_in_fixed_order func_data segmentation tr :
  let seg := positive_labels segmentation in
  length segmentation = length (rows func_data) →
  shape1 func_data ≠ 0%nat →
  is_argsort (newsegm_of seg) (argsort (newsegm_of seg)) →
  Forall in_band seg →
  ∃ o shown cort deep cereb wm,
    carpet_order clean argsort func_data segmentation tr = Ok o ∧
    take (o_order o) (o_seg o) = Ok shown ∧
    shown ≡ₚ seg ∧
    shown = cort ++ deep ++ cereb ++ wm ∧
    Forall (λ l, band_of l = Some CortGM) cort ∧
    Forall (λ l, band_of l = Some DeepGM) deep ∧
    Forall (λ l, band_of l = Some Cerebellum) cereb ∧
    Forall (λ l, band_of l = Some WmCsf) wm.
Proof.
  intros seg Hlen Hn Hsort Hband.
  eexists _, (omap (λ i, seg !! i) (argsort (newsegm_of seg))).
  rewrite carpet_order_Ok by done. cbn [o_order o_seg].
  destruct (is_argsort_take _ _ seg Hsort) as [Htake Hperm].
  { by rewrite newsegm_of_length. }
  set (order := argsort (newsegm_of seg)) in *.
  set (shown := omap (λ i, seg !! i) order) in *.
  assert (StronglySorted (λ x y, label_band_index x ≤ label_band_index y)%nat shown)
    as Hsorted.
  { destruct Hsort as [_ Hs]. rewrite newsegm_of_fmap, omap_lookup_fmap in Hs.
    apply StronglySorted_fmap_inv in Hs. fold shown in Hs.
    eapply StronglySorted_weaken; [|exact Hs]. cbn beta.
    intros x y Hx Hy. rewrite Hperm in Hx, Hy.
    by apply rank_le_band; [..|eapply Forall_forall|eapply Forall_forall]. }
  assert (Forall in_band shown) as Hshown by by rewrite Hperm.
  destruct (sorted_split label_band_index 1 shown Hsorted)
    as (cort & r1 & E1 & Hc & Hr1 & S1).
  destruct (sorted_split label_band_index 2 r1 S1) as (deep & r2 & E2 & Hd & Hr2 & S2).
  destruct (sorted_split label_band_index 3 r2 S2) as (cereb & wm & E3 & Hb & Hw & _).
  exists cort, deep, cereb, wm. subst r1 r2.
  split; [done|]. split; [done|]. split; [done|]. split; [done|].
  rewrite E1 in Hshown. rewrite !Forall_app in Hshown.
  rewrite !Forall_app in Hr1. rewrite !Forall_app in Hr2.
  destruct Hshown as (Ic & Id & Ib & Iw), Hr1 as (Hd1 & Hb1 & Hw1), Hr2 as (Hb2 & Hw2).
  repeat split; apply Forall_forall; intros l Hl;
    repeat match goal with
           | H : Forall _ ?k, Hl : l ∈ ?k |- _ =>
               rewrite Forall_forall in H; specialize (H l Hl)
           end;
    unfold in_band, label_band_index in *;
    destruct (band_of l) as [[]|]; cbn in *; first [done | lia | by destruct Ic
      | by destruct Id | by destruct Ib | by destruct Iw].
Qed.

(** C4, as the code has it: the permutation sorts the voxels by rank and
    is used only to pick rows for display.  It lists every index of the
    masked array exactly once, the ranks read along it never decrease,
    the voxel-time matrix keeps its rows in their original order, and
    each displayed row is the row of the source array (raw for a
    statistical map, detrended otherwise) at the index the permutation
    gives, with every second sample kept when the series is decimated.
    Nothing is stated about the order of voxels of equal rank: that is
    left to [argsort]. *)
Theorem C4_sorted_by_rank_rows_picked func_data segmentation stat map_range tr :
  let seg := positive_labels segmentation in
  let data := Arr2 (shape1 func_data) (labelled segmentation (rows func_data)).*2 in
  length segmentation = length (rows func_data) →
  shape1 func_data ≠ 0%nat →
  is_argsort (newsegm_of seg) (argsort (newsegm_of seg)) →
  same_shape (clean (default 1%Qc tr) data) data →
  (stat = true → tr = None) →
  ∃ o c,
    carpet_order clean argsort func_data segmentation (default 1%Qc tr) = Ok o ∧
    fmricarpetplot clean argsort func_data segmentation stat map_range tr = Ok c ∧
    o_order o ≡ₚ seq 0 (length (rows (o_data o))) ∧
    StronglySorted Z.le (omap (λ i, o_newsegm o !! i) (o_order o)) ∧
    o_data o = data ∧
    o_detrended o = clean (default 1%Qc tr) data ∧
    let src := if stat then o_data o else o_detrended o in
    let picked := omap (λ i, rows src !! i) (o_order o) in
    length picked = length (o_order o) ∧
    rows (image c) =
      if decide (stat = false ∧ (800 < shape1 (o_detrended o))%nat)
      then stride2 <$> picked else picked.
Proof.
  intros seg data Hlen Hn Hsort Hshape Hstat.
  destruct (fmricarpetplot_Ok clean argsort func_data segmentation stat
              map_range tr Hlen Hn Hsort Hshape Hstat) as [c Hc].
  destruct (fmricarpetplot_inv _ _ _ _ _ _ _ _ Hc) as (o & lc & Ho & _ & Hi & _).
  exists o, c. split; [done|]. split; [done|].
  destruct (carpet_order_data_length _ _ _ _ _ _ Ho) as (Hd & _ & _).
  apply carpet_order_inv in Ho as (_ & _ & ->).
  cbn [o_data o_order o_newsegm o_seg o_detrended] in *. fold seg data in Hi, Hd |- *.
  pose proof Hsort as [Hperm Hsorted]. rewrite newsegm_of_length in Hperm.
  pose proof (is_argsort_range _ _ Hsort) as Hrange.
  rewrite newsegm_of_length in Hrange.
  split; [by rewrite Hd|]. split; [done|]. split; [done|]. split; [done|].
  destruct Hshape as [_ Hrows]. cbn zeta. destruct stat.
  - rewrite carpet_image_stat in Hi by (cbn [o_data o_order]; by rewrite Hd).
    cbn [o_data o_order] in Hi. injection Hi as Hi _ _. rewrite <-Hi. cbn [rows].
    rewrite decide_False by (intros [? _]; done). split; [|done].
    eapply take_length, take_omap. by rewrite Hd.
  - rewrite carpet_image_raw in Hi
      by (cbn [o_detrended o_order]; by rewrite Hrows, Hd).
    cbn [o_detrended o_order] in Hi. injection Hi as Hi _ _. rewrite <-Hi.
    split; [eapply take_length, take_omap; by rewrite Hrows, Hd|].
    case_decide; [rewrite decide_True by done|rewrite decide_False by tauto]; done.
Qed.

(** C8: a 4x4x4x50 volume whose segmentation holds the labels 150, 50,
    255 and 5 once each and 0 elsewhere.  The voxel-time matrix has four
    rows; read along the permutation, they are the time series of the
    voxel labelled 150, then of the voxels labelled 50, 255 and 5. *)
Theorem C8_one_voxel_per_band func_data segmentation tr :
  let seg := positive_labels segmentation in
  segmentation ≡ₚ [150; 50; 255; 5] ++ replicate 60 0 →
  length (rows func_data) = 64%nat →
  shape1 func_data = 50%nat →
  is_argsort (newsegm_of seg) (argsort (newsegm_of seg)) →
  ∃ o r150 r50 r255 r5,
    carpet_order clean argsort func_data segmentation tr = Ok o ∧
    length (rows (o_data o)) = 4%nat ∧
    take (o_order o) (o_seg o) = Ok [150; 50; 255; 5] ∧
    (150, r150) ∈ zip segmentation (rows func_data) ∧
    (50, r50) ∈ zip segmentation (rows func_data) ∧
    (255, r255) ∈ zip segmentation (rows func_data) ∧
    (5, r5) ∈ zip segmentation (rows func_data) ∧
    take (o_order o) (rows (o_data o)) = Ok [r150; r50; r255; r5].
Proof.
  intros seg Hseg Hrows Hn Hsort.
  assert (length segmentation = length (rows func_data)) as Hlen.
  { by rewrite Hseg, Hrows. }
  assert (seg ≡ₚ [150; 50; 255; 5]) as Hperm.
  { unfold seg, positive_labels. by rewrite Hseg. }
  assert (band_labels seg = [150; 50; 255; 5]) as Hbands.
  { unfold band_labels. rewrite (np_unique_of_perm _ [150; 50; 255; 5]).
    - vm_compute. reflexivity.
    - apply (bool_decide_unpack _). vm_compute. reflexivity.
    - done. }
  set (order := argsort (newsegm_of seg)) in *.
  set (pairs := labelled segmentation (rows func_data)).
  assert (pairs.*1 = seg) as Hfst by by apply labelled_fst.
  assert (length pairs = length (newsegm_of seg)) as Hpl.
  { by rewrite newsegm_of_length, <-Hfst, length_fmap. }
  destruct (is_argsort_take _ _ pairs Hsort Hpl) as [_ Hpp].
  assert ((omap (λ i, pairs !! i) order).*1 = [150; 50; 255; 5]) as Hshown.
  { rewrite <-omap_lookup_fmap, Hfst.
    destruct (is_argsort_take _ _ seg Hsort) as [_ Hps].
    { by rewrite newsegm_of_length. }
    destruct Hsort as [_ Hs]. rewrite newsegm_of_fmap, omap_lookup_fmap in Hs.
    fold order in Hs, Hps. rewrite Hbands in Hs.
    apply StronglySorted_fmap_inv in Hs.
    apply (StronglySorted_unique_strong
             (λ x y, rank_at [150; 50; 255; 5] 0 0 x ≤ rank_at [150; 50; 255; 5] 0 0 y));
      [|done| |by rewrite Hps].
    - intros x y Hx Hy. rewrite Hps, Hperm in Hx. by apply four_labels_rank_inj.
    - apply (bool_decide_unpack _). vm_compute. reflexivity. }
  remember (omap (λ i, pairs !! i) order) as dp eqn:Hdp.
  assert (∀ p, p ∈ dp → p ∈ zip segmentation (rows func_data)) as Hin.
  { intros p Hp. rewrite Hpp in Hp. by apply labelled_subseteq in Hp as [? _]. }
  destruct dp as [|[l1 r1] [|[l2 r2] [|[l3 r3] [|[l4 r4] [|? ?]]]]];
    try discriminate Hshown.
  injection Hshown as -> -> -> ->.
  exists (Ordering (Arr2 (shape1 func_data) pairs.*2)
            (clean tr (Arr2 (shape1 func_data) pairs.*2)) seg (newsegm_of seg) order),
         r1, r2, r3, r4.
  split; [apply carpet_order_Ok; [done|lia]|]. cbn [o_data o_order o_seg rows].
  split. { by rewrite length_fmap, <-(length_fmap fst), Hfst, Hperm. }
  split.
  { rewrite take_omap.
    - by rewrite <-Hfst, omap_lookup_fmap, <-Hdp.
    - rewrite <-(newsegm_of_length seg). by apply is_argsort_range. }
  repeat (split; [apply Hin; set_solver|]).
  rewrite take_omap.
  - by rewrite omap_lookup_fmap, <-Hdp.
  - rewrite length_fmap, Hpl. by apply is_argsort_range.
Qed.
End ordering_claims.

(** C1 at a concrete input: the voxel labelled 20 belongs to no band and its
    row is displayed all the same, so two rows are shown where the claim
    counts one. *)
Lemma C1_out_of_band_voxel_displayed :
  ∃ c, fmricarpetplot (λ _ a, a) argsort_ins
         (Arr2 3 [[1; 2; 3]; [4; 5; 6]]) [20; 150] false None None = Ok c ∧
       rows (image c) = [[1; 2; 3]; [4; 5; 6]] ∧
       length (filter in_band (positive_labels [20; 150])) = 1%nat ∧
       length (rows (image c)) ≠
         length (filter in_band (positive_labels [20; 150])).
Proof. eexists. split; [vm_compute; reflexivity|]. cbn. repeat split; [vm_compute; done..|]. vm_compute. lia. Qed.

Lemma C1_every_labelled_voxel_kept_witness :
  ∃ o c,
    carpet_order (λ _ a, a) argsort_ins (Arr2 3 [[1; 2; 3]; [4; 5; 6]]) [20; 150]
      (default 1%Qc None) = Ok o ∧
    fmricarpetplot (λ _ a, a) argsort_ins (Arr2 3 [[1; 2; 3]; [4; 5; 6]]) [20; 150]
      false None None = Ok c ∧
    length (rows (o_data o)) = length (positive_labels [20; 150]) ∧
    o_order o ≡ₚ seq 0 (length (positive_labels [20; 150])) ∧
    length (rows (image c)) = length (positive_labels [20; 150]) ∧
    (∀ i l, positive_labels [20; 150] !! i = Some l → band_of l = None →
            o_newsegm o !! i = Some 0).
Proof.
  apply (C1_every_labelled_voxel_kept (λ _ a, a) argsort_ins
           (Arr2 3 [[1; 2; 3]; [4; 5; 6]]) [20; 150] false None None).
  - reflexivity.
  - cbn. lia.
  - apply argsort_ins_is_argsort.
  - split; reflexivity.
  - intros H. discriminate H.
Defined.

Lemma C3_bands_contiguous_in_fixed_order_witness :
  ∃ o shown cort deep cereb wm,
    carpet_order (λ _ a, a) argsort_ins
      (Arr2 2 [[1; 2]; [3; 4]; [5; 6]; [7; 8]; [9; 10]]) [5; 150; 0; 50; 255] 1%Qc
      = Ok o ∧
    take (o_order o) (o_seg o) = Ok shown ∧
    shown ≡ₚ positive_labels [5; 150; 0; 50; 255] ∧
    shown = cort ++ deep ++ cereb ++ wm ∧
    Forall (λ l, band_of l = Some CortGM) cort ∧
    Forall (λ l, band_of l = Some DeepGM) deep ∧
    Forall (λ l, band_of l = Some Cerebellum) cereb ∧
    Forall (λ l, band_of l = Some WmCsf) wm.
Proof.
  apply (C3_bands_contiguous_in_fixed_order (λ _ a, a) argsort_ins
           (Arr2 2 [[1; 2]; [3; 4]; [5; 6]; [7; 8]; [9; 10]]) [5; 150; 0; 50; 255] 1%Qc).
  - reflexivity.
  - cbn. lia.
  - apply argsort_ins_is_argsort.
  - apply (bool_decide_unpack _). vm_compute. reflexivity.
Defined.

(** C2 at the band edges: labels 100 and 30 enter no band list. *)
Lemma C2_labels_100_and_30_in_no_band :
  (100 ∉ cort_gm (np_unique (positive_labels [30; 100]))) ∧
  (30 ∉ deep_gm (np_unique (positive_labels [30; 100]))) ∧
  band_labels (positive_labels [30; 100]) = [255] ∧
  band_of 100 = None ∧ band_of 30 = None ∧
  spec_band_of 100 = Some CortGM ∧ spec_band_of 30 = Some DeepGM.
Proof.
  repeat split; try (vm_compute; reflexivity);
    (apply (bool_decide_unpack _); vm_compute; reflexivity).
Qed.

(** C2, as the code has it: the strict comparisons of lines 130-133 put the
    labels 101-199 of the segmentation in cortical GM, 31-99 in deep GM and
    1-9 in WM/CSF; label 255 is always listed as cerebellum.  The labels
    10-30, 100, 200-254 and those above 255 enter no band. *)
Theorem C2_band_partition_strict_bounds (segmentation : list Z) (l : Z) :
  let seg_labels := np_unique (positive_labels segmentation) in
  (l ∈ cort_gm seg_labels ↔ l ∈ segmentation ∧ 101 ≤ l ≤ 199) ∧
  (l ∈ deep_gm seg_labels ↔ l ∈ segmentation ∧ 31 ≤ l ≤ 99) ∧
  (l ∈ cerebellum ↔ l = 255) ∧
  (l ∈ wm_csf seg_labels ↔ l ∈ segmentation ∧ 1 ≤ l ≤ 9) ∧
  (l ∈ band_labels (positive_labels segmentation) ↔
     l = 255 ∨ l ∈ segmentation ∧ (101 ≤ l ≤ 199 ∨ 31 ≤ l ≤ 99 ∨ 1 ≤ l ≤ 9)) ∧
  (band_of l = None ↔ 10 ≤ l ≤ 30 ∨ l = 100 ∨ 200 ≤ l ≤ 254 ∨ 256 ≤ l).
Proof.
  cbn zeta. unfold band_labels. cbn zeta. rewrite !elem_of_app.
  rewrite elem_of_cort_gm, elem_of_deep_gm, elem_of_wm_csf, elem_of_cerebellum.
  rewrite elem_of_positive_labels, band_of_None.
  assert (100 < l < 200 ↔ 101 ≤ l ≤ 199) as -> by lia.
  assert (30 < l < 100 ↔ 31 ≤ l ≤ 99) as -> by lia.
  assert (200 ≤ l < 255 ↔ 200 ≤ l ≤ 254) as -> by lia.
  assert (255 < l ↔ 256 ≤ l) as -> by lia.
  assert ((l ∈ segmentation ∧ 0 < l) ∧ l < 10 ↔ l ∈ segmentation ∧ 1 ≤ l ≤ 9)
    as -> by (split; intros; destruct_and?; repeat split; first [done | lia]).
  assert ((l ∈ segmentation ∧ 0 < l) ∧ 101 ≤ l ≤ 199 ↔ l ∈ segmentation ∧ 101 ≤ l ≤ 199)
    as -> by (split; intros; destruct_and?; repeat split; first [done | lia]).
  assert ((l ∈ segmentation ∧ 0 < l) ∧ 31 ≤ l ≤ 99 ↔ l ∈ segmentation ∧ 31 ≤ l ≤ 99)
    as -> by (split; intros; destruct_and?; repeat split; first [done | lia]).
  tauto.
Qed.

(** C4 on eighteen voxels of label 5, all of rank 1.  The permutation
    below arranges equal keys in ascending key order, as the contract of
    [argsort] asks, and lists voxel 15 before voxel 1. *)
Lemma C4_equal_ranks_reordered :
  let segmentation := replicate 18 5 in
  let keys := newsegm_of (positive_labels segmentation) in
  let order := [0; 15; 14; 13; 12; 11; 10; 9; 8; 7; 6; 5; 4; 3; 2; 1; 16; 17]%nat in
  is_argsort keys order ∧ ¬ stable keys order.
Proof.
  cbn zeta. split.
  - apply (bool_decide_unpack _). vm_compute. reflexivity.
  - intros H.
    assert (15 < 1)%nat; [|lia].
    apply (H 15 1 1 15)%nat; [reflexivity..| |lia].
    vm_compute. reflexivity.
Qed.

(** ** The claims about rendering *)

Lemma range_step_lt n k : (1 ≤ k)%nat → Forall (λ t, t < n)%nat (range_step n k).
Proof.
  intros Hk. unfold range_step. rewrite Forall_fmap. apply Forall_seq.
  intros j [_ Hj]. cbn.
  pose proof (Nat.Div0.mul_div_le (n + k - 1) k). nia.
Qed.

Lemma Qc_of_nat_double (t : Qc) j : (t * Qc_of_nat j * 2 = t * Qc_of_nat (2 * j))%Qc.
Proof.
  unfold Qc_of_nat. replace (Z.of_nat (2 * j)) with (2 * Z.of_nat j) by lia.
  rewrite Z2Qc_inj_mul, Z2Qc_inj_2. ring.
Qed.

Lemma div2_S_bounds n : (n ≤ 2 * Nat.div2 (S n) ≤ n + 1)%nat.
Proof.
  rewrite Nat.div2_div. pose proof (Nat.div_mod_eq (S n) 2).
  pose proof (Nat.mod_upper_bound (S n) 2). lia.
Qed.

Lemma xtick_interval_pos n : (1 ≤ ((n + 1) / 10) `max` 1)%nat.
Proof. lia. Qed.

Section rendering_claims.
Context {A : Type}.
Variable clean : Qc → arr2 A → arr2 A.
Variable argsort : list Z → list nat.

(** The raw (non-statistical) path with a sampling interval, for any
    length of the time axis. *)
Lemma raw_with_interval func_data segmentation map_range t :
  let seg := positive_labels segmentation in
  let data := Arr2 (shape1 func_data) (labelled segmentation (rows func_data)).*2 in
  let order := argsort (newsegm_of seg) in
  let picked := omap (λ i, rows (clean t data) !! i) order in
  let long := bool_decide (800 < shape1 func_data)%nat in
  length segmentation = length (rows func_data) →
  shape1 func_data ≠ 0%nat →
  is_argsort (newsegm_of seg) order →
  same_shape (clean t data) data →
  ∃ c,
    fmricarpetplot clean argsort func_data segmentation false map_range (Some t)
      = Ok c ∧
    take order (rows (clean t data)) = Ok picked ∧
    rows (image c) = (if long then stride2 <$> picked else picked) ∧
    shape1 (image c) =
      (if long then Nat.div2 (S (shape1 func_data)) else shape1 func_data) ∧
    Forall (λ j, j < shape1 (image c))%nat (xticks c) ∧
    xlabel c = "time (s)" ∧
    xticklabels c =
      (λ j, t * Qc_of_nat (if long then 2 * j else j))%Qc <$> xticks c.
Proof.
  intros seg data order picked long Hlen Hn Hsort [Hcols Hrows].
  assert (length (rows data) = length (newsegm_of seg)) as Hdata.
  { cbn. rewrite newsegm_of_length. unfold seg.
    rewrite <-(labelled_fst segmentation (rows func_data)) by done.
    by rewrite !length_fmap. }
  pose proof (is_argsort_range _ _ Hsort) as Hrange.
  assert (Forall (λ i, i < length (rows (clean t data)))%nat order) as Hr
    by by rewrite Hrows, Hdata.
  unfold fmricarpetplot. change (default 1%Qc (Some t)) with t.
  rewrite carpet_order_Ok by done.
  fold seg data order. rewrite bind_Ok. cbn [o_order o_newsegm].
  destruct (is_argsort_take _ _ (newsegm_of seg) Hsort eq_refl) as [-> _].
  rewrite bind_Ok, carpet_image_raw by done. rewrite bind_Ok.
  cbn [o_detrended o_order o_seg]. unfold carpet_ticks.
  rewrite bool_decide_eq_false_2 by done. cbn [of_option]. rewrite bind_Ok.
  cbn [o_detrended]. rewrite Hcols. cbn [shape1].
  eexists. split; [reflexivity|]. cbn.
  split; [by apply take_omap|]. unfold long.
  case_bool_decide as Hlong.
  - rewrite !decide_True by done. cbn.
    repeat split; [apply range_step_lt, xtick_interval_pos|].
    rewrite <-list_fmap_compose. apply list_fmap_ext. intros _ j _. cbn.
    apply Qc_of_nat_double.
  - rewrite !decide_False by done. cbn.
    repeat split. apply range_step_lt, xtick_interval_pos.
Qed.

(** The statistical-map path without a sampling interval. *)
Lemma stat_without_interval func_data segmentation map_range :
  let seg := positive_labels segmentation in
  let data := Arr2 (shape1 func_data) (labelled segmentation (rows func_data)).*2 in
  let order := argsort (newsegm_of seg) in
  let picked := omap (λ i, rows data !! i) order in
  length segmentation = length (rows func_data) →
  shape1 func_data ≠ 0%nat →
  is_argsort (newsegm_of seg) order →
  ∃ c,
    fmricarpetplot clean argsort func_data segmentation true map_range None = Ok c ∧
    take order (rows data) = Ok picked ∧
    rows (image c) = picked ∧
    shape1 (image c) = shape1 func_data ∧
    carpet_cmap c = "Spectral_r" ∧
    xlabel c = "Frame #" ∧
    xticklabels c = Qc_of_nat <$> xticks c.
Proof.
  intros seg data order picked Hlen Hn Hsort.
  assert (length (rows data) = length (newsegm_of seg)) as Hdata.
  { cbn. rewrite newsegm_of_length. unfold seg.
    rewrite <-(labelled_fst segmentation (rows func_data)) by done.
    by rewrite !length_fmap. }
  pose proof (is_argsort_range _ _ Hsort) as Hrange.
  assert (Forall (λ i, i < length (rows data))%nat order) as Hr by by rewrite Hdata.
  unfold fmricarpetplot. change (default 1%Qc None) with 1%Qc.
  rewrite carpet_order_Ok by done.
  fold seg data order. rewrite bind_Ok. cbn [o_order o_newsegm].
  destruct (is_argsort_take _ _ (newsegm_of seg) Hsort eq_refl) as [-> _].
  rewrite bind_Ok, carpet_image_stat by done. rewrite bind_Ok.
  cbn [o_data o_order o_seg]. unfold carpet_ticks.
  rewrite bool_decide_eq_true_2 by done. rewrite bind_Ok.
  eexists. split; [reflexivity|]. cbn.
  split; [by apply take_omap|]. done.
Qed.

(** C6 on the raw path: with at most 800 time points no column is
    dropped and each tick is labelled with the interval times its frame
    index. *)
Lemma raw_short_series_not_decimated func_data segmentation map_range t :
  let seg := positive_labels segmentation in
  let data := Arr2 (shape1 func_data) (labelled segmentation (rows func_data)).*2 in
  let order := argsort (newsegm_of seg) in
  length segmentation = length (rows func_data) →
  (0 < shape1 func_data ≤ 800)%nat →
  is_argsort (newsegm_of seg) order →
  same_shape (clean t data) data →
  ∃ c,
    fmricarpetplot clean argsort func_data segmentation false map_range (Some t)
      = Ok c ∧
    rows (image c) = omap (λ i, rows (clean t data) !! i) order ∧
    shape1 (image c) = shape1 func_data ∧
    xticklabels c = (λ j, t * Qc_of_nat j)%Qc <$> xticks c.
Proof.
  intros seg data order Hlen Hn Hsort Hshape.
  destruct (raw_with_interval func_data segmentation map_range t)
    as (c & Hc & Hp & Hrows & Hcols & Hticks & _ & Hlabels); [done|lia|done..|].
  rewrite bool_decide_eq_false_2 in Hrows, Hcols, Hlabels by lia. by exists c.
Qed.

(** C7, as the code has it: with [map_range] unspecified the display
    range handed to [imshow] is [-2, 2] for raw and for statistical-map
    input alike; the two differ in the colour map only. *)
Theorem C7_default_range_for_both_kinds func_data segmentation stat tr :
  let seg := positive_labels segmentation in
  let data := Arr2 (shape1 func_data) (labelled segmentation (rows func_data)).*2 in
  length segmentation = length (rows func_data) →
  shape1 func_data ≠ 0%nat →
  is_argsort (newsegm_of seg) (argsort (newsegm_of seg)) →
  same_shape (clean (default 1%Qc tr) data) data →
  (stat = true → tr = None) →
  ∃ c,
    fmricarpetplot clean argsort func_data segmentation stat None tr = Ok c ∧
    vmin c = Qc_of_Z (-2) ∧ vmax c = Qc_of_Z 2 ∧
    carpet_cmap c = if stat then "Spectral_r" else "gray".
Proof.
  intros seg data Hlen Hn Hsort Hshape Hstat.
  destruct (fmricarpetplot_Ok clean argsort func_data segmentation stat
              None tr Hlen Hn Hsort Hshape Hstat) as [c Hc].
  exists c. split; [done|].
  destruct (fmricarpetplot_inv _ _ _ _ _ _ _ _ Hc) as (o & lc & _ & _ & Hi & Hr & _).
  injection Hr as -> ->. repeat split.
  unfold carpet_image in Hi. destruct stat; cbn [negb] in Hi.
  - destruct (take_rows _ _); cbn in Hi; by simplify_eq.
  - case_decide; destruct (take_rows _ _); cbn in Hi; by simplify_eq.
Qed.

(** A call with [stat=True] and a sampling interval never returns. *)
Lemma stat_with_interval_never_returns func_data segmentation map_range t :
  ∃ e, fmricarpetplot clean argsort func_data segmentation true map_range (Some t)
       = Raise e.
Proof.
  unfold fmricarpetplot.
  destruct (carpet_order _ _ _ _ _) as [o|]; [|by eexists].
  rewrite bind_Ok. destruct (take _ _) as [st|]; [|by eexists].
  rewrite bind_Ok. unfold carpet_image. cbn [negb].
  destruct (take_rows _ _) as [b|]; [|by eexists]. by eexists.
Qed.

End rendering_claims.

(** ** The claims at concrete inputs *)

Lemma C4_sorted_by_rank_rows_picked_witness :
  ∃ o c,
    carpet_order clean_id argsort_ins long_volume [20; 150] (default 1%Qc None) = Ok o ∧
    fmricarpetplot clean_id argsort_ins long_volume [20; 150] false None None = Ok c ∧
    o_order o ≡ₚ seq 0 (length (rows (o_data o))) ∧
    StronglySorted Z.le (omap (λ i, o_newsegm o !! i) (o_order o)) ∧
    o_data o = Arr2 (shape1 long_volume) (labelled [20; 150] (rows long_volume)).*2 ∧
    o_detrended o =
      clean_id (default 1%Qc None)
        (Arr2 (shape1 long_volume) (labelled [20; 150] (rows long_volume)).*2) ∧
    let src := if false then o_data o else o_detrended o in
    let picked := omap (λ i, rows src !! i) (o_order o) in
    length picked = length (o_order o) ∧
    rows (image c) =
      if decide (false = false ∧ (800 < shape1 (o_detrended o))%nat)
      then stride2 <$> picked else picked.
Proof.
  apply (C4_sorted_by_rank_rows_picked clean_id argsort_ins long_volume [20; 150]
           false None None).
  - reflexivity.
  - cbn. lia.
  - apply argsort_ins_is_argsort.
  - split; reflexivity.
  - intros H. discriminate H.
Defined.

Lemma C8_one_voxel_per_band_witness :
  ∃ o r150 r50 r255 r5,
    carpet_order clean_id argsort_ins volume_4x4x4x50 one_voxel_per_band 1%Qc = Ok o ∧
    length (rows (o_data o)) = 4%nat ∧
    take (o_order o) (o_seg o) = Ok [150; 50; 255; 5] ∧
    (150, r150) ∈ zip one_voxel_per_band (rows volume_4x4x4x50) ∧
    (50, r50) ∈ zip one_voxel_per_band (rows volume_4x4x4x50) ∧
    (255, r255) ∈ zip one_voxel_per_band (rows volume_4x4x4x50) ∧
    (5, r5) ∈ zip one_voxel_per_band (rows volume_4x4x4x50) ∧
    take (o_order o) (rows (o_data o)) = Ok [r150; r50; r255; r5].
Proof.
  apply (C8_one_voxel_per_band clean_id argsort_ins volume_4x4x4x50
           one_voxel_per_band 1%Qc).
  - apply (bool_decide_unpack _). vm_compute. reflexivity.
  - reflexivity.
  - reflexivity.
  - apply argsort_ins_is_argsort.
Defined.

Example C8_rows_at_concrete_input :
  (o ← carpet_order clean_id argsort_ins volume_4x4x4x50 one_voxel_per_band 1%Qc;
   take (o_order o) (rows (o_data o))) =
  Ok [replicate 50 32; replicate 50 63; replicate 50 31; replicate 50 10].
Proof. vm_compute. reflexivity. Qed.

(** C5 on a statistical map with 801 time points: all 801 columns are
    displayed. *)
Lemma C5_long_stat_map_not_decimated :
  ∃ c, fmricarpetplot clean_id argsort_ins long_volume [5; 150] true None None = Ok c ∧
       shape1 (image c) = 801%nat ∧
       Forall (λ r, length r = 801%nat) (rows (image c)) ∧
       ¬ (2 * shape1 (image c) ≤ 801 + 1)%nat.
Proof.
  eexists. split; [vm_compute; reflexivity|]. cbn [image shape1 rows].
  split; [reflexivity|]. split; [|lia].
  apply (bool_decide_unpack _). vm_compute. reflexivity.
Qed.

(** C6 at a statistical map with 50 time points and a sampling interval of
    2 s: the call raises before any tick label is set. *)
Theorem C6_short_stat_map_with_interval_raises :
  fmricarpetplot clean_id argsort_ins short_volume [5] true None (Some (Qc_of_Z 2))
  = Raise NameError.
Proof. vm_compute. reflexivity. Qed.

(** C7 on a statistical map without [map_range]: the range [-2, 2] is
    handed to [imshow] all the same. *)
Lemma C7_stat_map_default_range :
  ∃ c, fmricarpetplot clean_id argsort_ins short_volume [5] true None None = Ok c ∧
       carpet_cmap c = "Spectral_r" ∧
       vmin c = Qc_of_Z (-2) ∧ vmax c = Qc_of_Z 2.
Proof.
  destruct (stat_without_interval clean_id argsort_ins short_volume [5] None)
    as (c & Hc & _ & _ & _ & Hcmap & _).
  - reflexivity.
  - cbn. lia.
  - apply argsort_ins_is_argsort.
  - exists c. split; [done|]. split; [done|].
    destruct (fmricarpetplot_inv _ _ _ _ _ _ _ _ Hc) as (_ & _ & _ & _ & _ & Hr & _).
    by injection Hr as -> ->.
Qed.

Lemma C7_default_range_for_both_kinds_witness :
  ∃ c, fmricarpetplot clean_id argsort_ins short_volume [5] false None
         (Some (Qc_of_Z 2)) = Ok c ∧
       vmin c = Qc_of_Z (-2) ∧ vmax c = Qc_of_Z 2 ∧
       carpet_cmap c = if false then "Spectral_r" else "gray".
Proof.
  apply (C7_default_range_for_both_kinds clean_id argsort_ins short_volume [5]
           false (Some (Qc_of_Z 2))).
  - reflexivity.
  - cbn. lia.
  - apply argsort_ins_is_argsort.
  - split; reflexivity.
  - intros H. discriminate H.
Defined.


(** ** [confoundplot] and the caller's cutoff list *)


Lemma confoundplot_other_lists tseries tr normalize cutoff σ l :
  cutoff ≠ Some l →
  heap (confoundplot tseries tr normalize cutoff σ) !! l = heap σ !! l.
Proof.
  intros Hne. unfold confoundplot. destruct cutoff as [l'|]; cbn; [|done].
  apply lookup_alter_ne. congruence.
Qed.

(** C9 at a plot with one confound whose cutoff list is [7].  The first
    [plot()] leaves the caller's list as [2, 7], the second as [2, 2, 7];
    the first call draws two threshold lines, the second three. *)
Theorem C9_plot_twice_grows_cutoff_list :
  let σ1 := (plot clean_id argsort_ins confound_plot confound_store).1 in
  let σ2 := (plot clean_id argsort_ins confound_plot σ1).1 in
  heap confound_store !! 0%nat = Some [Qc_of_Z 7] ∧
  heap σ1 !! 0%nat = Some [Qc_of_Z 2; Qc_of_Z 7] ∧
  heap σ2 !! 0%nat = Some [Qc_of_Z 2; Qc_of_Z 2; Qc_of_Z 7] ∧
  length (drawn σ1) = 3%nat ∧
  length (drawn σ2) = (3 + 4)%nat.
Proof.
  cbn zeta. repeat split; apply (bool_decide_unpack _); vm_compute; reflexivity.
Qed.

(** C3 with the bands of the specification: labels 50 and 100 lie in its
    deep-GM and cortical-GM bands, yet both keep rank 0 and the cortical
    row is displayed between the two deep-GM rows. *)
Lemma C3_label_100_between_deep_gm_rows :
  let segmentation := [50; 100; 50] in
  Forall (λ l, is_Some (spec_band_of l)) (positive_labels segmentation) ∧
  ∃ o shown,
    carpet_order clean_id argsort_ins (Arr2 1 [[1]; [2]; [3]]) segmentation 1%Qc
      = Ok o ∧
    o_newsegm o = [0; 0; 0] ∧
    take (o_order o) (o_seg o) = Ok shown ∧
    shown = [50; 100; 50] ∧
    spec_band_of <$> shown = [Some DeepGM; Some CortGM; Some DeepGM].
Proof.
  cbn zeta. split.
  - apply (bool_decide_unpack _). vm_compute. reflexivity.
  - eexists _, _. split; [vm_compute; reflexivity|]. cbn [o_newsegm o_order o_seg].
    repeat split; vm_compute; reflexivity.
Qed.


(** * Further properties of the row ordering *)

Lemma StronglySorted_filter {T} (R : relation T) (P : T → Prop)
    `{∀ x, Decision (P x)} l :
  StronglySorted R l → StronglySorted R (filter P l).
Proof.
  induction 1 as [|x l Hl IH Hall]; [constructor|].
  rewrite filter_cons. case_decide; [|done].
  constructor; [done|]. rewrite Forall_forall in Hall |- *.
  intros y [_ Hy]%list_elem_of_filter. by apply Hall.
Qed.

Lemma StronglySorted_lookup {T} (R : relation T) l a b x y :
  StronglySorted R l → (a < b)%nat → l !! a = Some x → l !! b = Some y → R x y.
Proof.
  intros Hl. revert a b. induction Hl as [|z l Hl IH Hall]; intros a b Hab Ha Hb.
  { by rewrite lookup_nil in Ha. }
  destruct b as [|b]; [lia|]. destruct a as [|a]; cbn in Ha, Hb.
  - simplify_eq. rewrite Forall_forall in Hall. apply Hall.
    by eapply list_elem_of_lookup_2.
  - eapply IH; [|done..]. lia.
Qed.

Lemma np_unique_strict l : StronglySorted Z.lt (np_unique l).
Proof.
  pose proof (np_unique_sorted l) as Hs. pose proof (np_unique_NoDup l) as Hn.
  induction Hs as [|x k Hk IH Hall]; [constructor|].
  apply NoDup_cons in Hn as [Hx Hn]. constructor; [by apply IH|].
  rewrite Forall_forall in Hall |- *. intros y Hy.
  specialize (Hall y Hy). assert (x ≠ y) by (by intros ->). lia.
Qed.

Lemma band_labels_NoDup seg : NoDup (band_labels seg).
Proof.
  unfold band_labels. cbn zeta. pose proof (np_unique_NoDup seg) as Hu.
  rewrite !NoDup_app. repeat split.
  - by apply NoDup_filter.
  - intros x. rewrite !elem_of_app, elem_of_cort_gm, elem_of_deep_gm, elem_of_wm_csf,
      elem_of_cerebellum. intros [_ ?] [[_ ?]|[?|[_ ?]]]; lia.
  - by apply NoDup_filter.
  - intros x. rewrite !elem_of_app, elem_of_deep_gm, elem_of_wm_csf,
      elem_of_cerebellum. intros [_ ?] [?|[_ ?]]; lia.
  - unfold cerebellum. apply NoDup_singleton.
  - intros x. rewrite elem_of_wm_csf, elem_of_cerebellum. intros -> [_ ?]. lia.
  - by apply NoDup_filter.
Qed.

Lemma elem_of_band_labels seg s : s ∈ seg → in_band s → s ∈ band_labels seg.
Proof.
  intros Hs [b Hb]. apply band_of_Some in Hb. unfold band_labels. cbn zeta.
  rewrite !elem_of_app, elem_of_cort_gm, elem_of_deep_gm, elem_of_wm_csf,
    elem_of_cerebellum.
  destruct b; auto.
Qed.

Lemma rank_at_inj labels id cur x y :
  NoDup labels → x ∈ labels → y ∈ labels →
  rank_at labels id cur x = rank_at labels id cur y → x = y.
Proof.
  intros Hn. revert id cur.
  induction Hn as [|lab rest Hlab Hn IH]; intros id cur Hx Hy.
  { by apply elem_of_nil in Hx. }
  cbn [rank_at]. apply elem_of_cons in Hx as [->|Hx], Hy as [->|Hy]; [done| | |].
  - rewrite decide_True by done. rewrite (rank_at_notin rest) by done.
    pose proof (rank_at_bounds rest (id + 1)
                  (if decide (y = lab) then id else cur) y Hy). lia.
  - rewrite (decide_True (P := lab = lab)) by done.
    rewrite (rank_at_notin rest _ _ lab) by done.
    pose proof (rank_at_bounds rest (id + 1)
                  (if decide (x = lab) then id else cur) x Hx). lia.
  - rewrite !decide_False by (intros ->; done). by apply IH.
Qed.

Lemma rank_at_lt_mono labels id cur x y :
  StronglySorted Z.lt labels → x ∈ labels → y ∈ labels → x < y →
  rank_at labels id cur x < rank_at labels id cur y.
Proof.
  intros Hs. revert id cur.
  induction Hs as [|lab rest Hs IH Hall]; intros id cur Hx Hy Hxy.
  { by apply elem_of_nil in Hx. }
  rewrite Forall_forall in Hall. cbn [rank_at].
  apply elem_of_cons in Hy as [->|Hy].
  { apply elem_of_cons in Hx as [->|Hx]; [lia|]. specialize (Hall x Hx). lia. }
  pose proof (Hall y Hy) as Hly.
  apply elem_of_cons in Hx as [->|Hx].
  - rewrite decide_True by done.
    rewrite (rank_at_notin rest _ _ lab) by (intros H%Hall; lia).
    pose proof (rank_at_bounds rest (id + 1)
                  (if decide (y = lab) then id else cur) y Hy). lia.
  - pose proof (Hall x Hx). rewrite !decide_False by lia. by apply IH.
Qed.

(** The rank of a label of a band, computed inside that band's list. *)
Lemma rank_in_band seg s b :
  s ∈ seg → band_of s = Some b →
  let U := np_unique seg in
  let nc := Z.of_nat (length (cort_gm U)) in
  let nd := Z.of_nat (length (deep_gm U)) in
  rank_at (band_labels seg) 0 0 s =
  match b with
  | CortGM => rank_at (cort_gm U) 0 0 s
  | DeepGM => rank_at (deep_gm U) nc 0 s
  | Cerebellum => nc + nd
  | WmCsf => rank_at (wm_csf U) (nc + nd + 1) 0 s
  end.
Proof.
  intros Hs Hb. cbn zeta. unfold band_labels. cbn zeta.
  rewrite !rank_at_app. cbn [cerebellum length rank_at].
  pose proof (elem_of_cort_gm seg s) as Hc.
  pose proof (elem_of_deep_gm seg s) as Hd.
  pose proof (elem_of_wm_csf seg s) as Hw.
  apply band_of_Some in Hb. destruct b.
  - rewrite (rank_at_notin (deep_gm _)) by (rewrite Hd; lia).
    rewrite decide_False by lia.
    by rewrite (rank_at_notin (wm_csf _)) by (rewrite Hw; lia).
  - rewrite (rank_at_notin (cort_gm _)) by (rewrite Hc; lia).
    rewrite decide_False by lia.
    by rewrite (rank_at_notin (wm_csf _)) by (rewrite Hw; lia).
  - rewrite (rank_at_notin (cort_gm _)) by (rewrite Hc; lia).
    rewrite (rank_at_notin (deep_gm _)) by (rewrite Hd; lia).
    rewrite decide_True by done.
    rewrite (rank_at_notin (wm_csf _)) by (rewrite Hw; lia). lia.
  - rewrite (rank_at_notin (cort_gm _)) by (rewrite Hc; lia).
    rewrite (rank_at_notin (deep_gm _)) by (rewrite Hd; lia).
    rewrite decide_False by lia. f_equal; lia.
Qed.

Lemma rank_lt_in_band seg x y b :
  x ∈ seg → y ∈ seg → band_of x = Some b → band_of y = Some b → x < y →
  rank_at (band_labels seg) 0 0 x < rank_at (band_labels seg) 0 0 y.
Proof.
  intros Hx Hy Hbx Hby Hxy.
  rewrite (rank_in_band seg x b Hx Hbx), (rank_in_band seg y b Hy Hby).
  pose proof (np_unique_strict seg) as Hs.
  apply band_of_Some in Hbx, Hby. destruct b.
  - apply rank_at_lt_mono; [by apply StronglySorted_filter|..|done];
      by apply elem_of_cort_gm.
  - apply rank_at_lt_mono; [by apply StronglySorted_filter|..|done];
      by apply elem_of_deep_gm.
  - lia.
  - apply rank_at_lt_mono; [by apply StronglySorted_filter|..|done];
      by apply elem_of_wm_csf.
Qed.

(** X1: every rank written by the relabelling loop lies between 0 and
    [len(seg_labels) - 1], the colour range of the segmentation strip. *)
Theorem X1_ranks_within_strip_range (seg : list Z) (r : Z) :
  r ∈ newsegm_of seg → 0 ≤ r ≤ Z.of_nat (length (band_labels seg)) - 1.
Proof.
  rewrite newsegm_of_fmap. intros (s & -> & Hs)%list_elem_of_fmap.
  assert (1 ≤ Z.of_nat (length (band_labels seg))).
  { unfold band_labels. cbn zeta. rewrite !length_app. cbn. lia. }
  destruct (decide (s ∈ band_labels seg)) as [Hin|Hnin].
  - pose proof (rank_at_bounds _ 0 0 s Hin). lia.
  - rewrite rank_at_notin by done. lia.
Qed.

Lemma X1_ranks_within_strip_range_witness :
  0 ≤ 3 ≤ Z.of_nat (length (band_labels [5; 150; 5; 255; 50; 20])) - 1.
Proof.
  apply (X1_ranks_within_strip_range [5; 150; 5; 255; 50; 20] 3).
  apply (bool_decide_unpack _). vm_compute. reflexivity.
Defined.

(** X2: two voxels whose labels lie in a band receive the same rank only
    when they carry the same label. *)
Theorem X2_in_band_labels_have_distinct_ranks (seg : list Z) (i j : nat) (x y : Z) :
  seg !! i = Some x → seg !! j = Some y → in_band x → in_band y →
  newsegm_of seg !! i = newsegm_of seg !! j → x = y.
Proof.
  intros Hi Hj Hbx Hby. rewrite newsegm_of_fmap, !list_lookup_fmap, Hi, Hj. cbn.
  intros [= Hr]. eapply rank_at_inj; [apply band_labels_NoDup|..|exact Hr];
    apply elem_of_band_labels; first [done | by eapply list_elem_of_lookup_2].
Qed.

Lemma X2_in_band_labels_have_distinct_ranks_witness : (5 : Z) = 5.
Proof.
  apply (X2_in_band_labels_have_distinct_ranks [5; 150; 5; 255] 0 2 5 5).
  - reflexivity.
  - reflexivity.
  - by eexists.
  - by eexists.
  - vm_compute. reflexivity.
Defined.

(** X3: along the permutation, two voxels of the same band appear in
    ascending order of their labels. *)
Theorem X3_labels_ascend_within_a_band (seg : list Z) (order : list nat)
    (shown : list Z) (a b : nat) (x y : Z) (bd : band) :
  is_argsort (newsegm_of seg) order →
  take order seg = Ok shown →
  (a < b)%nat → shown !! a = Some x → shown !! b = Some y →
  band_of x = Some bd → band_of y = Some bd →
  x ≤ y.
Proof.
  intros Hsort Htake Hab Ha Hb Hbx Hby.
  destruct (is_argsort_take _ _ seg Hsort) as [Htake' Hperm].
  { by rewrite newsegm_of_length. }
  rewrite Htake in Htake'. injection Htake' as ->.
  destruct Hsort as [_ Hs]. rewrite newsegm_of_fmap, omap_lookup_fmap in Hs.
  apply StronglySorted_fmap_inv in Hs.
  pose proof (StronglySorted_lookup _ _ _ _ _ _ Hs Hab Ha Hb) as Hr. cbn in Hr.
  destruct (decide (x ≤ y)) as [|Hgt]; [done|]. exfalso.
  assert (rank_at (band_labels seg) 0 0 y < rank_at (band_labels seg) 0 0 x); [|lia].
  eapply rank_lt_in_band; [..|lia]; try done.
  - rewrite <-Hperm. by eapply list_elem_of_lookup_2.
  - rewrite <-Hperm. by eapply list_elem_of_lookup_2.
Qed.

Lemma X3_labels_ascend_within_a_band_witness : 120 ≤ 150.
Proof.
  apply (X3_labels_ascend_within_a_band [150; 5; 120] (argsort_ins (newsegm_of [150; 5; 120]))
           [120; 150; 5] 0 1 120 150 CortGM).
  - apply argsort_ins_is_argsort.
  - vm_compute. reflexivity.
  - lia.
  - reflexivity.
  - reflexivity.
  - reflexivity.
  - reflexivity.
Defined.

(** * Further properties of the rendering *)

Lemma range_step_length n k : length (range_step n k) = ((n + k - 1) / k)%nat.
Proof. unfold range_step. by rewrite length_fmap, length_seq. Qed.

Lemma range_step_sorted n k : (1 ≤ k)%nat → StronglySorted lt (range_step n k).
Proof.
  intros Hk. unfold range_step.
  cut (∀ m s, StronglySorted lt ((λ j, j * k)%nat <$> seq s m)); [intros H; apply H|].
  induction m as [|m IH]; intros s; [constructor|].
  cbn. constructor; [apply IH|]. rewrite Forall_fmap. apply Forall_seq.
  intros j [Hj _]. cbn. nia.
Qed.

Lemma xtick_count_bounds n :
  let k := (((n + 1) / 10) `max` 1)%nat in
  ((n + k - 1) / k ≤ 18 ∧ (10 ≤ n → 10 ≤ (n + k - 1) / k))%nat.
Proof.
  cbn zeta. set (q := ((n + 1) / 10)%nat).
  pose proof (Nat.div_mod_eq (n + 1) 10) as Hq.
  pose proof (Nat.mod_upper_bound (n + 1) 10) as Hr. fold q in Hq.
  split.
  - apply Nat.lt_succ_r, Nat.Div0.div_lt_upper_bound. lia.
  - intros Hn. apply Nat.div_le_lower_bound; lia.
Qed.

Section rendering_values.
Context {A : Type}.
Variable clean : Qc → arr2 A → arr2 A.
Variable argsort : list Z → list nat.

(** What a call that returns hands to the plotting library, field by
    field. *)
Lemma fmricarpetplot_value func_data segmentation (stat : bool) map_range
    (tr : option Qc) :
  let seg := positive_labels segmentation in
  let data := Arr2 (shape1 func_data) (labelled segmentation (rows func_data)).*2 in
  let detrended := clean (default 1%Qc tr) data in
  let order := argsort (newsegm_of seg) in
  let src := if stat then data else detrended in
  let picked := omap (λ i, rows src !! i) order in
  let long := bool_decide (stat = false ∧ (800 < shape1 detrended)%nat) in
  let img := if long then stride2_cols (Arr2 (shape1 src) picked)
             else Arr2 (shape1 src) picked in
  let xt := range_step (shape1 img) (((shape1 img + 1) / 10) `max` 1)%nat in
  length segmentation = length (rows func_data) →
  shape1 func_data ≠ 0%nat →
  is_argsort (newsegm_of seg) order →
  same_shape detrended data →
  (stat = true → tr = None) →
  fmricarpetplot clean argsort func_data segmentation stat map_range tr =
  Ok (Carpet (omap (λ i, newsegm_of seg !! i) order)
        (Z.of_nat (length (band_labels seg)) - 1) img
        (if stat then "Spectral_r" else "gray")
        (default (Qc_of_Z (-2), Qc_of_Z 2) map_range).1
        (default (Qc_of_Z (-2), Qc_of_Z 2) map_range).2
        xt
        (if tr is None then "Frame #" else "time (s)")
        (match tr with
         | None => Qc_of_nat <$> xt
         | Some t =>
             if long then (λ x, x * 2)%Qc <$> ((λ j, t * Qc_of_nat j)%Qc <$> xt)
             else (λ j, t * Qc_of_nat j)%Qc <$> xt
         end)).
Proof.
  intros seg data detrended order src picked long img xt Hlen Hn Hsort [_ Hrows] Hstat.
  assert (length (rows data) = length (newsegm_of seg)) as Hdata.
  { cbn. rewrite newsegm_of_length. unfold seg.
    rewrite <-(labelled_fst segmentation (rows func_data)) by done.
    by rewrite !length_fmap. }
  pose proof (is_argsort_range _ _ Hsort) as Hrange.
  unfold fmricarpetplot. rewrite carpet_order_Ok by done.
  fold seg data detrended order. rewrite bind_Ok. cbn [o_order o_newsegm].
  destruct (is_argsort_take _ _ (newsegm_of seg) Hsort eq_refl) as [-> _].
  rewrite bind_Ok. subst img xt picked src long. destruct stat.
  - rewrite (Hstat eq_refl).
    rewrite carpet_image_stat by (cbn [o_data o_order]; by rewrite Hdata).
    rewrite bind_Ok. cbn [o_data o_order o_seg]. unfold carpet_ticks.
    rewrite bool_decide_eq_true_2 by done. rewrite bind_Ok.
    by rewrite bool_decide_eq_false_2 by (intros [? _]; done).
  - rewrite carpet_image_raw by (cbn [o_detrended o_order]; by rewrite Hrows, Hdata).
    rewrite bind_Ok. cbn [o_detrended o_order o_seg]. unfold carpet_ticks.
    destruct tr as [t|].
    + rewrite bool_decide_eq_false_2 by done. cbn [of_option]. rewrite bind_Ok.
      cbn [o_detrended]. case_bool_decide as Hl.
      * destruct Hl as [_ Hl]. by rewrite !decide_True by done.
      * rewrite !decide_False by (intros ?; apply Hl; by split). done.
    + rewrite bool_decide_eq_true_2 by done. rewrite bind_Ok.
      case_bool_decide as Hl.
      * destruct Hl as [_ Hl]. by rewrite !decide_True by done.
      * rewrite !decide_False by (intros ?; apply Hl; by split). done.
Qed.

(** The stat branch with a sampling interval, on arrays of matching
    shapes. *)
Lemma stat_with_interval_raises func_data segmentation map_range t :
  let seg := positive_labels segmentation in
  length segmentation = length (rows func_data) →
  shape1 func_data ≠ 0%nat →
  is_argsort (newsegm_of seg) (argsort (newsegm_of seg)) →
  fmricarpetplot clean argsort func_data segmentation true map_range (Some t)
  = Raise NameError.
Proof.
  intros seg Hlen Hn Hsort.
  set (data := Arr2 (shape1 func_data) (labelled segmentation (rows func_data)).*2).
  assert (length (rows data) = length (newsegm_of seg)) as Hdata.
  { cbn. rewrite newsegm_of_length. unfold seg.
    rewrite <-(labelled_fst segmentation (rows func_data)) by done.
    by rewrite !length_fmap. }
  pose proof (is_argsort_range _ _ Hsort) as Hrange.
  unfold fmricarpetplot. change (default 1%Qc (Some t)) with t.
  rewrite carpet_order_Ok by done. fold seg data.
  rewrite bind_Ok. cbn [o_order o_newsegm].
  destruct (is_argsort_take _ _ (newsegm_of seg) Hsort eq_refl) as [-> _].
  rewrite bind_Ok, carpet_image_stat by (cbn [o_data o_order]; by rewrite Hdata).
  rewrite bind_Ok. unfold carpet_ticks.
  by rewrite bool_decide_eq_false_2 by done.
Qed.
End rendering_values.

Lemma wf_labelled_rows {A} segmentation (a : arr2 A) :
  wf_arr2 a → wf_arr2 (Arr2 (shape1 a) (labelled segmentation (rows a)).*2).
Proof.
  unfold wf_arr2. cbn. rewrite !Forall_forall.
  intros Ha r ([l r'] & -> & Hp)%list_elem_of_fmap. cbn.
  apply labelled_subseteq in Hp as [Hp _]. apply Ha.
  by apply elem_of_zip_r in Hp.
Qed.

Lemma wf_picked_rows {A} (a : arr2 A) (order : list nat) :
  wf_arr2 a → wf_arr2 (Arr2 (shape1 a) (omap (λ i, rows a !! i) order)).
Proof.
  unfold wf_arr2. cbn. rewrite !Forall_forall.
  intros Ha r (i & _ & Hr)%list_elem_of_omap. apply Ha.
  by eapply list_elem_of_lookup_2.
Qed.

Lemma wf_stride2_cols {A} (a : arr2 A) : wf_arr2 a → wf_arr2 (stride2_cols a).
Proof.
  unfold wf_arr2, stride2_cols. cbn. rewrite Forall_fmap. intros Ha.
  eapply Forall_impl; [exact Ha|]. intros r Hr. cbn. by rewrite stride2_length, Hr.
Qed.

Section rendering_extras.
Context {A : Type}.
Variable clean : Qc → arr2 A → arr2 A.
Variable argsort : list Z → list nat.

Lemma carpet_ticks_inv notr t (o : ordering A) data lc xt xl lb :
  carpet_ticks notr t o data lc = Ok (xt, xl, lb) →
  xt = range_step (shape1 data) (((shape1 data + 1) / 10) `max` 1)%nat ∧
  length lb = length xt.
Proof.
  unfold carpet_ticks. destruct notr.
  - intros [= <- <- <-]. by rewrite length_fmap.
  - destruct lc as [n|]; [|done]. cbn [of_option]. rewrite bind_Ok.
    intros [= <- <- <-]. case_decide; by rewrite !length_fmap.
Qed.

(** X4: whenever the call returns, the x ticks start at column 0, are
    evenly spaced and ascending, stay below the number of displayed
    columns, and there are at most 18 of them (at least 10 once ten
    columns are displayed); there is one label per tick. *)
Theorem X4_xticks_shape func_data segmentation stat map_range tr c :
  fmricarpetplot clean argsort func_data segmentation stat map_range tr = Ok c →
  let n := shape1 (image c) in
  let interval := (((n + 1) / 10) `max` 1)%nat in
  xticks c = (λ j, j * interval)%nat <$> seq 0 (length (xticks c)) ∧
  ((0 < n)%nat → xticks c !! 0%nat = Some 0%nat) ∧
  StronglySorted lt (xticks c) ∧
  Forall (λ t, t < n)%nat (xticks c) ∧
  (length (xticks c) ≤ 18)%nat ∧
  (10 ≤ n → 10 ≤ length (xticks c))%nat ∧
  length (xticklabels c) = length (xticks c).
Proof.
  intros Hc. destruct (fmricarpetplot_inv _ _ _ _ _ _ _ _ Hc)
    as (o & lc & _ & _ & _ & _ & Ht).
  apply carpet_ticks_inv in Ht as [Hxt Hlb]. cbn zeta.
  set (n := shape1 (image c)) in *.
  set (k := (((n + 1) / 10) `max` 1)%nat) in *.
  pose proof (xtick_count_bounds n) as [Hmax Hmin]. fold k in Hmax, Hmin.
  rewrite Hxt at 1. rewrite Hxt, range_step_length.
  split; [done|]. split.
  - intros Hn. unfold range_step.
    destruct ((n + k - 1) / k)%nat as [|m] eqn:Hm; [|done].
    apply Nat.div_small_iff in Hm; lia.
  - repeat split; try done.
    + apply range_step_sorted. lia.
    + apply range_step_lt. lia.
    + by rewrite Hlb, Hxt, range_step_length.
Qed.

(** X5: on arrays of matching shapes the call raises the name error
    exactly when it is given a statistical map together with a sampling
    interval, and returns in every other case. *)
Theorem X5_returns_unless_stat_with_interval func_data segmentation (stat : bool)
    map_range (tr : option Qc) :
  let seg := positive_labels segmentation in
  let data := Arr2 (shape1 func_data) (labelled segmentation (rows func_data)).*2 in
  length segmentation = length (rows func_data) →
  shape1 func_data ≠ 0%nat →
  is_argsort (newsegm_of seg) (argsort (newsegm_of seg)) →
  same_shape (clean (default 1%Qc tr) data) data →
  (stat = true ∧ tr ≠ None →
     fmricarpetplot clean argsort func_data segmentation stat map_range tr
     = Raise NameError) ∧
  (¬ (stat = true ∧ tr ≠ None) →
     ∃ c, fmricarpetplot clean argsort func_data segmentation stat map_range tr
          = Ok c).
Proof.
  intros seg data Hlen Hn Hsort Hshape. split.
  - intros [-> Htr]. destruct tr as [t|]; [|done].
    by apply stat_with_interval_raises.
  - intros Hok. apply fmricarpetplot_Ok; try done.
    intros ->. destruct tr; [|done]. exfalso. by apply Hok.
Qed.

(** X6: when the input volume is rectangular and [clean] returns a
    rectangular array of the same shape, the displayed image is
    rectangular too: every row has as many samples as the image has
    columns, with or without decimation. *)
Theorem X6_image_is_rectangular func_data segmentation (stat : bool) map_range
    (tr : option Qc) :
  let seg := positive_labels segmentation in
  let data := Arr2 (shape1 func_data) (labelled segmentation (rows func_data)).*2 in
  let detrended := clean (default 1%Qc tr) data in
  let long := bool_decide (stat = false ∧ (800 < shape1 func_data)%nat) in
  length segmentation = length (rows func_data) →
  shape1 func_data ≠ 0%nat →
  is_argsort (newsegm_of seg) (argsort (newsegm_of seg)) →
  wf_arr2 func_data →
  wf_arr2 detrended →
  same_shape detrended data →
  (stat = true → tr = None) →
  ∃ c, fmricarpetplot clean argsort func_data segmentation stat map_range tr = Ok c ∧
       wf_arr2 (image c) ∧
       shape1 (image c) =
         (if long then Nat.div2 (S (shape1 func_data)) else shape1 func_data) ∧
       length (rows (image c)) = length seg.
Proof.
  intros seg data detrended long Hlen Hn Hsort Hwf Hwfd Hshape Hstat.
  eexists. split; [by apply fmricarpetplot_value|]. cbn [image].
  fold seg data detrended. destruct Hshape as [Hcols Hrows]. rewrite Hcols.
  cbn [shape1 data] in *.
  assert (length (omap (λ i, rows (if stat then data else detrended) !! i)
            (argsort (newsegm_of seg))) = length seg) as Hpicked.
  { pose proof (is_argsort_range _ _ Hsort) as Hrange.
    rewrite newsegm_of_length in Hrange.
    assert (length (rows (if stat then data else detrended)) = length seg) as Hl.
    { destruct stat; rewrite ?Hrows; cbn; unfold seg;
        rewrite <-(labelled_fst segmentation (rows func_data)) by done;
        by rewrite !length_fmap. }
    erewrite (take_length _ (rows (if stat then data else detrended)));
      [|apply take_omap; by rewrite Hl].
    destruct Hsort as [Hp _]. by rewrite Hp, length_seq, newsegm_of_length. }
  assert (wf_arr2 (if stat then data else detrended)) as Hsrc.
  { destruct stat; [by apply wf_labelled_rows|done]. }
  assert (shape1 (if stat then data else detrended) = shape1 func_data) as Hs1.
  { by destruct stat. }
  subst long. case_bool_decide as Hl.
  - repeat split.
    + by apply wf_stride2_cols, wf_picked_rows.
    + cbn. by rewrite Hs1.
    + cbn. by rewrite length_fmap.
  - repeat split.
    + by apply wf_picked_rows.
    + done.
    + done.
Qed.

(** X7: for raw input without a sampling interval the axis is labelled
    'Frame #' and each tick label is the index of the displayed column,
    also when the series is decimated, where displayed column [j] holds
    the sample of frame [2j]. *)
Theorem X7_frame_labels_are_column_indices func_data segmentation map_range :
  let seg := positive_labels segmentation in
  let data := Arr2 (shape1 func_data) (labelled segmentation (rows func_data)).*2 in
  let detrended := clean 1%Qc data in
  let order := argsort (newsegm_of seg) in
  let picked := omap (λ i, rows detrended !! i) order in
  length segmentation = length (rows func_data) →
  shape1 func_data ≠ 0%nat →
  is_argsort (newsegm_of seg) order →
  same_shape detrended data →
  ∃ c, fmricarpetplot clean argsort func_data segmentation false map_range None
         = Ok c ∧
       xlabel c = "Frame #" ∧
       xticklabels c = Qc_of_nat <$> xticks c ∧
       ((shape1 func_data ≤ 800)%nat → rows (image c) = picked) ∧
       ((800 < shape1 func_data)%nat →
          rows (image c) = stride2 <$> picked ∧
          ∀ k row j, rows (image c) !! k = Some row →
            ∃ r, picked !! k = Some r ∧ row !! j = r !! (2 * j)%nat).
Proof.
  intros seg data detrended order picked Hlen Hn Hsort Hshape.
  eexists. split; [by apply fmricarpetplot_value|]. cbn [image xlabel xticklabels xticks].
  change (default 1%Qc None) with 1%Qc. fold seg data detrended order picked.
  destruct Hshape as [Hcols _]. rewrite Hcols. cbn [shape1 data].
  split; [done|]. split; [done|]. split.
  - intros Hs. by rewrite bool_decide_eq_false_2 by lia.
  - intros Hl. rewrite bool_decide_eq_true_2 by done. cbn. split; [done|].
    intros k row j. rewrite list_lookup_fmap.
    destruct (picked !! k) as [r|]; [|done]. intros [= <-].
    exists r. split; [done|]. apply stride2_lookup.
Qed.

End rendering_extras.

Lemma X4_xticks_shape_witness :
  ∃ c, fmricarpetplot clean_id argsort_ins long_volume [5; 150] true None None = Ok c ∧
    let n := shape1 (image c) in
    let interval := (((n + 1) / 10) `max` 1)%nat in
    xticks c = (λ j, j * interval)%nat <$> seq 0 (length (xticks c)) ∧
    ((0 < n)%nat → xticks c !! 0%nat = Some 0%nat) ∧
    StronglySorted lt (xticks c) ∧
    Forall (λ t, t < n)%nat (xticks c) ∧
    (length (xticks c) ≤ 18)%nat ∧
    (10 ≤ n → 10 ≤ length (xticks c))%nat ∧
    length (xticklabels c) = length (xticks c).
Proof.
  eexists. split; [vm_compute; reflexivity|].
  apply (X4_xticks_shape clean_id argsort_ins long_volume [5; 150] true None None).
  vm_compute. reflexivity.
Defined.

Lemma X5_returns_unless_stat_with_interval_witness :
  (true = true ∧ Some (Qc_of_Z 2) ≠ None →
     fmricarpetplot clean_id argsort_ins short_volume [5] true None (Some (Qc_of_Z 2))
     = Raise NameError) ∧
  (¬ (true = true ∧ Some (Qc_of_Z 2) ≠ None) →
     ∃ c, fmricarpetplot clean_id argsort_ins short_volume [5] true None
            (Some (Qc_of_Z 2)) = Ok c).
Proof.
  apply (X5_returns_unless_stat_with_interval clean_id argsort_ins short_volume [5]
           true None (Some (Qc_of_Z 2))).
  - reflexivity.
  - cbn. lia.
  - apply argsort_ins_is_argsort.
  - split; reflexivity.
Defined.

Lemma X6_image_is_rectangular_witness :
  ∃ c, fmricarpetplot clean_id argsort_ins long_volume [5; 150] false None
         (Some (Qc_of_Z 2)) = Ok c ∧
       wf_arr2 (image c) ∧
       shape1 (image c) =
         (if bool_decide (false = false ∧ (800 < shape1 long_volume)%nat)
          then Nat.div2 (S (shape1 long_volume)) else shape1 long_volume) ∧
       length (rows (image c)) = length (positive_labels [5; 150]).
Proof.
  apply (X6_image_is_rectangular clean_id argsort_ins long_volume [5; 150] false None
           (Some (Qc_of_Z 2))).
  - reflexivity.
  - cbn. lia.
  - apply argsort_ins_is_argsort.
  - apply (bool_decide_unpack _). vm_compute. reflexivity.
  - apply (bool_decide_unpack _). vm_compute. reflexivity.
  - split; reflexivity.
  - intros H. discriminate H.
Defined.

Lemma X7_frame_labels_are_column_indices_witness :
  let picked :=
    omap (λ i, rows (clean_id 1%Qc
                 (Arr2 (shape1 long_volume) (labelled [5; 150] (rows long_volume)).*2))
               !! i)
      (argsort_ins (newsegm_of (positive_labels [5; 150]))) in
  ∃ c, fmricarpetplot clean_id argsort_ins long_volume [5; 150] false None None = Ok c ∧
       xlabel c = "Frame #" ∧
       xticklabels c = Qc_of_nat <$> xticks c ∧
       ((shape1 long_volume ≤ 800)%nat → rows (image c) = picked) ∧
       ((800 < shape1 long_volume)%nat →
          rows (image c) = stride2 <$> picked ∧
          ∀ k row j, rows (image c) !! k = Some row →
            ∃ r, picked !! k = Some r ∧ row !! j = r !! (2 * j)%nat).
Proof.
  apply (X7_frame_labels_are_column_indices clean_id argsort_ins long_volume [5; 150]
           None).
  - reflexivity.
  - cbn. lia.
  - apply argsort_ins_is_argsort.
  - split; reflexivity.
Defined.


(** * Properties of [fMRIPlot] *)

Lemma remove_dups_replicate (x : Z) k : remove_dups (replicate (S k) x) = [x].
Proof.
  induction k as [|k IH]; [done|].
  change (replicate (S (S k)) x) with (x :: replicate (S k) x).
  cbn [remove_dups].
  destruct (decide_rel elem_of x (replicate (S k) x)) as [_|Hn]; [exact IH|].
  exfalso. apply Hn. by left.
Qed.

Lemma newsegm_of_replicate_2 k : newsegm_of (replicate k 2) = replicate k 1.
Proof.
  destruct k as [|k]; [done|].
  rewrite newsegm_of_fmap. unfold band_labels, np_unique.
  rewrite remove_dups_replicate. by rewrite fmap_replicate.
Qed.

Lemma positive_labels_doubled_mask mask_data :
  Forall (λ m, m = 0 ∨ m = 1) mask_data →
  positive_labels ((λ m, 2 * m) <$> mask_data) =
  replicate (length (positive_labels mask_data)) 2.
Proof.
  unfold positive_labels. induction 1 as [|m ms [->| ->] _ IH]; [done| |].
  - rewrite fmap_cons, !filter_cons, !decide_False by lia. exact IH.
  - rewrite fmap_cons, !filter_cons, !decide_True by lia. cbn. by rewrite IH.
Qed.

Section class_extras.
Context {A : Type}.
Variable clean : Qc → arr2 A → arr2 A.
Variable argsort : list Z → list nat.

(** X9: an [fMRIPlot] built without a segmentation from a 0/1 mask labels
    every masked voxel 2, a WM/CSF label, and the relabelling gives every
    one of them rank 1: the keys handed to [argsort] are all equal. *)
Theorem X9_binary_mask_gives_one_rank (func_data : arr2 A) zoom_t mask_data tr stat
    map_range :
  Forall (λ m, m = 0 ∨ m = 1) mask_data →
  let self := fMRIPlot_init func_data zoom_t mask_data None tr stat map_range in
  let seg := positive_labels (seg_data self) in
  length seg = length (positive_labels mask_data) ∧
  Forall (λ l, l = 2 ∧ band_of l = Some WmCsf) seg ∧
  newsegm_of seg = replicate (length seg) 1.
Proof.
  intros Hmask. cbn zeta. cbn [fMRIPlot_init seg_data].
  rewrite positive_labels_doubled_mask by done.
  rewrite length_replicate, newsegm_of_replicate_2.
  split; [done|]. split; [|done].
  apply Forall_forall. by intros l [-> _]%elem_of_replicate.
Qed.

(** X10: how [plot] ends for an object built by the constructor, on
    arrays of matching shapes.  Raw data is always plotted against time
    in seconds, because the constructor takes the sampling interval from
    the header when none is given; a statistical map without a sampling
    interval is plotted against frame numbers; a statistical map with one
    raises the name error. *)
Theorem X10_plot_outcome_by_constructor_arguments (volume : arr2 A) zoom_t mask_data
    seg (tr_arg : option Qc) (stat : bool) range (σ : plt) :
  let self := fMRIPlot_init volume zoom_t mask_data seg tr_arg stat range in
  let labels := positive_labels (seg_data self) in
  let data := Arr2 (shape1 volume) (labelled (seg_data self) (rows volume)).*2 in
  let long := bool_decide (800 < shape1 volume)%nat in
  length (seg_data self) = length (rows volume) →
  shape1 volume ≠ 0%nat →
  is_argsort (newsegm_of labels) (argsort (newsegm_of labels)) →
  same_shape (clean (default 1%Qc (tr self)) data) data →
  (stat = false →
     ∃ c, (plot clean argsort self σ).2 = Ok c ∧ xlabel c = "time (s)" ∧
          xticklabels c =
            (λ j, default zoom_t tr_arg * Qc_of_nat (if long then 2 * j else j))%Qc
              <$> xticks c) ∧
  (stat = true → tr_arg = None →
     ∃ c, (plot clean argsort self σ).2 = Ok c ∧ xlabel c = "Frame #" ∧
          xticklabels c = Qc_of_nat <$> xticks c) ∧
  (stat = true → tr_arg ≠ None → (plot clean argsort self σ).2 = Raise NameError).
Proof.
  intros self labels data long Hlen Hn Hsort Hshape. unfold plot. cbn [snd].
  subst self. cbn [fMRIPlot_init func_data seg_data stat_map map_range tr] in *.
  fold labels in Hsort. repeat split.
  - intros ->.
    assert ((if decide (tr_arg = None ∧ false = false) then Some zoom_t else tr_arg)
            = Some (default zoom_t tr_arg)) as Htr by (by destruct tr_arg).
    rewrite Htr in *. subst data labels.
    rewrite fmricarpetplot_value by (try done; try (intros H; discriminate H)).
    eexists. split; [reflexivity|]. cbn [xlabel xticklabels xticks].
    destruct Hshape as [Hcols _]. rewrite Hcols. cbn [shape1].
    assert (bool_decide (false = false ∧ (800 < shape1 volume)%nat) = long) as ->.
    { unfold long. apply bool_decide_ext. tauto. }
    split; [done|]. destruct long; [|done].
    rewrite <-list_fmap_compose. apply list_fmap_ext. intros _ j _. cbn.
    apply Qc_of_nat_double.
  - intros -> ->. cbn [decide] in *.
    rewrite decide_False in * by (intros [_ H]; discriminate H).
    rewrite fmricarpetplot_value by done. by eexists.
  - intros -> Htr. destruct tr_arg as [t|]; [|done].
    rewrite decide_False by (intros [H _]; discriminate H).
    by apply stat_with_interval_raises.
Qed.

Lemma plot_store (self : fMRIPlot A) (σ : plt) :
  (plot clean argsort self σ).1 =
  foldl (λ σ '(tseries, kwargs),
           confoundplot tseries (tr self) (default true (d_normalize kwargs))
             (d_cutoff kwargs) σ)
        (foldl (λ σ '(tsz, name, iszs),
                  Plt (heap σ) (drawn σ ++ [DrawSpikes tsz name iszs]))
               σ (spikes self))
        (confounds self).
Proof. reflexivity. Qed.

Lemma spikes_loop_heap (sp : list (list (list Qc) * option string * bool)) (σ : plt) :
  heap (foldl (λ σ '(tsz, name, iszs),
                 Plt (heap σ) (drawn σ ++ [DrawSpikes tsz name iszs])) σ sp) = heap σ.
Proof.
  revert σ. induction sp as [|[[tsz name] iszs] sp IH]; intros σ; [done|].
  cbn [foldl]. by rewrite IH.
Qed.

(** X11: [plot] changes no list of the store other than those the
    [cutoff] entries of its confound descriptors refer to. *)
Theorem X11_plot_touches_only_referenced_lists (self : fMRIPlot A) (σ : plt) (l : loc) :
  (∀ p, p ∈ confounds self → d_cutoff p.2 ≠ Some l) →
  heap (plot clean argsort self σ).1 !! l = heap σ !! l.
Proof.
  intros Hl. rewrite plot_store.
  rewrite <-(spikes_loop_heap (spikes self) σ).
  generalize (foldl (λ σ '(tsz, name, iszs),
                Plt (heap σ) (drawn σ ++ [DrawSpikes tsz name iszs])) σ (spikes self)).
  induction (confounds self) as [|[ts kw] cs IH]; intros σ'; [done|].
  cbn [foldl]. rewrite IH by (intros p Hp; apply Hl; by right).
  apply confoundplot_other_lists. apply (Hl (ts, kw)). by left.
Qed.

End class_extras.

Lemma X9_binary_mask_gives_one_rank_witness :
  let self := fMRIPlot_init short_volume (Qc_of_Z 2) [0; 1; 1; 0] None None false None in
  let seg := positive_labels (seg_data self) in
  length seg = length (positive_labels [0; 1; 1; 0]) ∧
  Forall (λ l, l = 2 ∧ band_of l = Some WmCsf) seg ∧
  newsegm_of seg = replicate (length seg) 1.
Proof.
  apply (X9_binary_mask_gives_one_rank short_volume (Qc_of_Z 2) [0; 1; 1; 0] None false
           None).
  apply (bool_decide_unpack _). vm_compute. reflexivity.
Defined.

Lemma X10_plot_outcome_by_constructor_arguments_witness :
  let self := fMRIPlot_init short_volume (Qc_of_Z 3) [1] None None false None in
  let long := bool_decide (800 < shape1 short_volume)%nat in
  (false = false →
     ∃ c, (plot clean_id argsort_ins self (Plt ∅ [])).2 = Ok c ∧
          xlabel c = "time (s)" ∧
          xticklabels c =
            (λ j, default (Qc_of_Z 3) None * Qc_of_nat (if long then 2 * j else j))%Qc
              <$> xticks c) ∧
  (false = true → (None : option Qc) = None →
     ∃ c, (plot clean_id argsort_ins self (Plt ∅ [])).2 = Ok c ∧
          xlabel c = "Frame #" ∧ xticklabels c = Qc_of_nat <$> xticks c) ∧
  (false = true → (None : option Qc) ≠ None →
     (plot clean_id argsort_ins self (Plt ∅ [])).2 = Raise NameError).
Proof.
  apply (X10_plot_outcome_by_constructor_arguments clean_id argsort_ins short_volume
           (Qc_of_Z 3) [1] None None false None (Plt ∅ [])).
  - reflexivity.
  - cbn. lia.
  - apply argsort_ins_is_argsort.
  - split; reflexivity.
Defined.

Lemma X11_plot_touches_only_referenced_lists_witness :
  heap (plot clean_id argsort_ins confound_plot
          (Plt {[ 0%nat := [Qc_of_Z 7]; 1%nat := [Qc_of_Z 9] ]} [])).1 !! 1%nat =
  heap (Plt {[ 0%nat := [Qc_of_Z 7]; 1%nat := [Qc_of_Z 9] ]} []) !! 1%nat.
Proof.
  apply (X11_plot_touches_only_referenced_lists clean_id argsort_ins confound_plot).
  intros p Hp. apply list_elem_of_singleton in Hp as ->. cbn. discriminate.
Defined.


(** * Properties of [confoundplot] *)

Lemma Qcdiv_1_r (x : Qc) : (x / 1 = x)%Qc.
Proof.
  unfold Qcdiv. replace (/ 1)%Qc with 1%Qc by (apply Qc_is_canon; reflexivity).
  apply Qcmult_1_r.
Qed.

(** X14: the unit label and the plotted series agree.  The label ends in
    '/s' exactly when a sampling interval is given and [normalize] is set,
    and then the series is divided by the interval; in every other case
    the label carries the bare unit and the series is plotted as given. *)
Theorem X14_unit_label_matches_scaling tseries (t : option Qc) (normalize : bool)
    (cutoff : option loc) (σ : plt) (name units : string) :
  let notr := bool_decide (t = None) in
  ∃ rest,
    drawn (confoundplot tseries t normalize cutoff σ) =
      drawn σ ++ DrawSeries
        (match t with
         | Some t => if normalize then (λ x, x / t)%Qc <$> tseries else tseries
         | None => tseries
         end) :: rest ∧
    confound_var_label (Some name) (Some units) notr normalize =
      Some (name +:+ " [" +:+ units +:+
              (match t with
               | Some _ => if normalize then "/s]" else "]"
               | None => "]"
               end)).
Proof.
  cbn zeta.
  assert ((if normalize then (λ x, x / default 1%Qc t)%Qc <$> tseries else tseries) =
          match t with
          | Some t => if normalize then (λ x, x / t)%Qc <$> tseries else tseries
          | None => tseries
          end) as Hs.
  { destruct t as [t|], normalize; try done. cbn.
    rewrite <-(list_fmap_id tseries) at 2. apply list_fmap_ext.
    intros _ x _. apply Qcdiv_1_r. }
  assert (confound_var_label (Some name) (Some units) (bool_decide (t = None)) normalize =
          Some (name +:+ " [" +:+ units +:+
                  (match t with
                   | Some _ => if normalize then "/s]" else "]"
                   | None => "]"
                   end))) as Hlabel.
  { unfold confound_var_label. destruct t, normalize; done. }
  unfold confoundplot. rewrite Hs.
  destruct cutoff as [l|]; cbn [drawn]; eexists; (split; [reflexivity|exact Hlabel]).
Qed.

(** X15: the x ticks of a confound plot are spaced by [max(n // 5, 1)]:
    the [n // 10] term of line 385 never decides.  They start at 0, stay
    below the number of time points, and there are at most 9 of them (at
    least 5 once there are five time points). *)
Theorem X15_confound_xticks (ntsteps : nat) :
  confound_xticks ntsteps = range_step ntsteps ((ntsteps / 5) `max` 1)%nat ∧
  StronglySorted lt (confound_xticks ntsteps) ∧
  Forall (λ t, t < ntsteps)%nat (confound_xticks ntsteps) ∧
  (length (confound_xticks ntsteps) ≤ 9)%nat ∧
  (5 ≤ ntsteps → 5 ≤ length (confound_xticks ntsteps))%nat.
Proof.
  assert (((ntsteps / 10) `max` ((ntsteps / 5) `max` 1) = (ntsteps / 5) `max` 1)%nat)
    as Hk.
  { assert (ntsteps / 10 ≤ ntsteps / 5)%nat; [|lia].
    pose proof (Nat.div_mod_eq ntsteps 10). pose proof (Nat.div_mod_eq ntsteps 5).
    pose proof (Nat.mod_upper_bound ntsteps 10). pose proof (Nat.mod_upper_bound ntsteps 5).
    lia. }
  unfold confound_xticks. cbn zeta. rewrite Hk.
  set (k := ((ntsteps / 5) `max` 1)%nat).
  pose proof (Nat.div_mod_eq ntsteps 5) as Hq.
  pose proof (Nat.mod_upper_bound ntsteps 5) as Hr.
  split; [done|]. split; [apply range_step_sorted; lia|].
  split; [apply range_step_lt; lia|]. rewrite range_step_length. split.
  - apply Nat.lt_succ_r, Nat.Div0.div_lt_upper_bound. lia.
  - intros Hn. apply Nat.div_le_lower_bound; lia.
Qed.

(** * Properties of [spikesplot] and of the grid of [plot] *)

Lemma spikes_grid_loop (sp : list (list (list Qc) * option string * bool))
    (g : nat) (ps : list (nat * panel)) :
  foldl (λ '(grid_id, ps) _, ((grid_id + 1)%nat, ps ++ [(grid_id, SpikesPanel)]))
        (g, ps) sp =
  ((g + length sp)%nat,
   ps ++ zip (seq g (length sp)) (replicate (length sp) SpikesPanel)).
Proof.
  revert g ps. induction sp as [|x sp IH]; intros g ps; cbn [foldl length].
  { by rewrite Nat.add_0_r, app_nil_r. }
  rewrite IH. f_equal; [lia|]. rewrite <-(assoc_L (++)). cbn.
  by rewrite Nat.add_1_r.
Qed.

Lemma confounds_grid_loop (cf : list (nat * (list Qc * descriptor)))
    (g : nat) (ps : list (nat * panel)) :
  foldl (λ '(grid_id, ps) '(i, _),
           ((grid_id + 1)%nat, ps ++ [(grid_id, ConfoundPanel i)]))
        (g, ps) cf =
  ((g + length cf)%nat, ps ++ zip (seq g (length cf)) (ConfoundPanel <$> cf.*1)).
Proof.
  revert g ps. induction cf as [|[i x] cf IH]; intros g ps; cbn [foldl length].
  { by rewrite Nat.add_0_r, app_nil_r. }
  rewrite IH. f_equal; [lia|]. rewrite <-(assoc_L (++)). cbn.
  by rewrite Nat.add_1_r.
Qed.

Lemma imap_pair_fst {T} (l : list T) : (imap pair l).*1 = seq 0 (length l).
Proof.
  rewrite fmap_imap, <-(list_fmap_id (seq 0 (length l))), <-(imap_seq_0 l id).
  by apply imap_ext.
Qed.

(** X17: the grid of [plot] has one row per panel and no row is used
    twice: the spike plots take the first rows in the order they were
    added, the confound plots the next ones, each with the palette colour
    of its position, and the carpet the last row, the only one of height
    4. *)
Theorem X17_plot_layout {A} (self : fMRIPlot A) :
  let ns := length (spikes self) in
  let nc := length (confounds self) in
  let nrows := (1 + nc + ns)%nat in
  (plot_layout self).1 = replicate (ns + nc) 1%nat ++ [4%nat] ∧
  length (plot_layout self).1 = nrows ∧
  (plot_layout self).2.*1 = seq 0 nrows ∧
  (plot_layout self).2.*2 =
    replicate ns SpikesPanel ++ (ConfoundPanel <$> seq 0 nc) ++ [CarpetPanel].
Proof.
  cbn zeta. unfold plot_layout. cbn zeta.
  rewrite spikes_grid_loop, confounds_grid_loop. cbn [fst snd].
  rewrite length_imap, imap_pair_fst, app_nil_l.
  set (ns := length (spikes self)). set (nc := length (confounds self)).
  replace (1 + nc + ns - 1)%nat with (ns + nc)%nat by lia.
  split; [done|]. split; [rewrite length_app, length_replicate; cbn; lia|].
  rewrite !fmap_app. cbn [fmap list_fmap].
  rewrite !fst_zip, !snd_zip
    by (rewrite ?length_seq, ?length_replicate, ?length_fmap, ?length_seq; lia).
  cbn [fst snd]. split; [|by rewrite <-(assoc_L (++))].
  replace (1 + nc + ns)%nat with (ns + nc + 1)%nat by lia.
  by rewrite !seq_app.
Qed.


(** * The label offsets of [confoundplot] *)

(** Linear arithmetic over [Qc], through the underlying fractions. *)
Ltac qc_lra :=
  unfold Qcle, Qclt, Qcminus, Qcopp, Qcplus, Qcmult, Qc_of_Z in *;
  cbn [this Q2Qc] in *;
  rewrite ?Qreduction.Qred_correct in *;
  change (QArith_base.inject_Z 20) with (QArith_base.Qmake 20 1) in *;
  Lqa.lra.

Lemma Qc_of_nat_S k : Qc_of_nat (S k) = (Qc_of_nat k + 1)%Qc.
Proof.
  unfold Qc_of_nat. rewrite Nat2Z.inj_succ, <-Z.add_1_r, Z2Qc_inj_add.
  by rewrite Z2Qc_inj_1.
Qed.

Lemma factor_bounds (inc yrange : Qc) :
  (0 ≤ inc)%Qc → (inc < yrange)%Qc →
  (0 ≤ (- (inc / yrange) + 1) ^ 2 ∧ (- (inc / yrange) + 1) ^ 2 ≤ 1)%Qc.
Proof.
  intros Hinc Hlt.
  assert (0 < yrange)%Qc as Hpos by (by eapply Qcle_lt_trans).
  assert (yrange ≠ 0%Qc) as Hne by (by apply not_symmetry, Qclt_not_eq).
  set (q := (inc / yrange)%Qc).
  assert (q * yrange = inc)%Qc as Hq.
  { unfold q. rewrite Qcmult_comm. by apply Qcmult_div_r. }
  assert (0 ≤ q)%Qc as Hq0.
  { apply (Qcmult_le_mono_pos_r _ _ yrange Hpos). by rewrite Hq, Qcmult_0_l. }
  assert (q ≤ 1)%Qc as Hq1.
  { apply (Qcmult_le_mono_pos_r _ _ yrange Hpos). rewrite Hq, Qcmult_1_l.
    by apply Qclt_le_weak. }
  set (a := (- q + 1)%Qc).
  assert (0 ≤ a)%Qc as Ha0 by (unfold a; qc_lra).
  assert (a ≤ 1)%Qc as Ha1 by (unfold a; qc_lra).
  cbn [Qcpower]. rewrite Qcmult_1_r. split.
  - by apply Qcmult_nonneg_nonneg.
  - apply Qcle_trans with (1 * a)%Qc.
    + by apply Qcmult_le_mono_nonneg_r.
    + by rewrite Qcmult_1_l.
Qed.

Lemma y_off_step_bounds thr yrange (y : Qc * Qc) (k pth : Qc) :
  (- (Qc_of_Z 20 * k) ≤ y.1 ∧ y.1 ≤ 0 ∧ 0 ≤ y.2 ∧ y.2 ≤ Qc_of_Z 20 * k)%Qc →
  let y' := y_off_step thr yrange y pth in
  (- (Qc_of_Z 20 * (k + 1)) ≤ y'.1 ∧ y'.1 ≤ 0 ∧ 0 ≤ y'.2 ∧
   y'.2 ≤ Qc_of_Z 20 * (k + 1))%Qc.
Proof.
  intros (H1 & H2 & H3 & H4). cbn zeta. unfold y_off_step.
  case_decide as Hinc.
  - destruct (factor_bounds (Qcabs.Qcabs (thr - pth)) yrange
                (Qcabs.Qcabs_nonneg _) Hinc) as [Hf0 Hf1].
    set (f := ((- (Qcabs.Qcabs (thr - pth) / yrange) + 1) ^ 2)%Qc) in *.
    clearbody f. clear Hinc.
    case_decide; cbn [fst snd]; repeat split; qc_lra.
  - repeat split; qc_lra.
Qed.

Lemma y_off_loop_bounds thr yrange prev (y : Qc * Qc) (k : Qc) :
  (- (Qc_of_Z 20 * k) ≤ y.1 ∧ y.1 ≤ 0 ∧ 0 ≤ y.2 ∧ y.2 ≤ Qc_of_Z 20 * k)%Qc →
  let y' := foldl (y_off_step thr yrange) y prev in
  (- (Qc_of_Z 20 * (k + Qc_of_nat (length prev))) ≤ y'.1 ∧ y'.1 ≤ 0 ∧ 0 ≤ y'.2 ∧
   y'.2 ≤ Qc_of_Z 20 * (k + Qc_of_nat (length prev)))%Qc.
Proof.
  revert y k. induction prev as [|pth prev IH]; intros y k Hy; cbn zeta.
  - cbn [foldl length].
    assert (Qc_of_nat 0 = 0%Qc) as -> by (apply Qc_is_canon; reflexivity).
    by rewrite Qcplus_0_r.
  - cbn [foldl length]. rewrite Qc_of_nat_S.
    replace (k + (Qc_of_nat (length prev) + 1))%Qc
      with (k + 1 + Qc_of_nat (length prev))%Qc by ring.
    apply IH. by apply y_off_step_bounds.
Qed.

(** X18: the vertical offset given to the label of a threshold is at
    most 20 points, up or down, for each threshold listed before it, and
    it is 0 when every earlier threshold lies at least the y range
    away. *)
Theorem X18_annotation_offset_bounds (thr yrange : Qc) (prev : list Qc) :
  (- (Qc_of_Z 20 * Qc_of_nat (length prev)) ≤ annotation_offset thr yrange prev ∧
   annotation_offset thr yrange prev ≤ Qc_of_Z 20 * Qc_of_nat (length prev))%Qc ∧
  (Forall (λ pth, yrange ≤ Qcabs.Qcabs (thr - pth))%Qc prev →
   annotation_offset thr yrange prev = 0%Qc).
Proof.
  split.
  - destruct (y_off_loop_bounds thr yrange prev (0%Qc, 0%Qc) 0%Qc)
      as (H1 & H2 & H3 & H4).
    { cbn [fst snd]. rewrite Qcmult_0_r. repeat split; done. }
    rewrite Qcplus_0_l in H1, H4. unfold annotation_offset. cbn zeta.
    set (y := foldl (y_off_step thr yrange) (0%Qc, 0%Qc) prev) in *. clearbody y.
    case_decide; split; qc_lra.
  - intros Hfar. unfold annotation_offset. cbn zeta.
    assert (foldl (y_off_step thr yrange) (0%Qc, 0%Qc) prev = (0%Qc, 0%Qc)) as ->.
    { induction Hfar as [|pth prev Hp _ IH]; [done|]. cbn [foldl].
      unfold y_off_step at 2. rewrite decide_False by (by apply Qcle_not_lt). exact IH. }
    cbn [fst snd]. by case_decide.
Qed.

Example annotation_offset_example :
  annotation_offset (Qc_of_Z 3) (Qc_of_Z 4) [Qc_of_Z 1; Qc_of_Z 5; Qc_of_Z 9] = Qc_of_Z 5.
Proof. apply (bool_decide_unpack _). vm_compute. reflexivity. Qed.

(** * Decimation, for every kind of call *)

Section decimation.
Context {A : Type}.
Variable clean : Qc → arr2 A → arr2 A.
Variable argsort : list Z → list nat.

(** C5, as the code has it.  For raw input with more than 800 time
    points every second column is kept, with or without a sampling
    interval: the image has [ceil(n/2)] columns and displayed column [j]
    holds the sample of frame [2j]; when a sampling interval is given the
    tick at column [j] is labelled with the interval times [2j].  A
    statistical map is handed to the image with all its columns, whatever
    the length of its time axis and whether or not a sampling interval is
    given. *)
Theorem C5_long_raw_series_halved func_data segmentation map_range (tr : option Qc) :
  let seg := positive_labels segmentation in
  let data := Arr2 (shape1 func_data) (labelled segmentation (rows func_data)).*2 in
  let detrended := clean (default 1%Qc tr) data in
  let order := argsort (newsegm_of seg) in
  let n := shape1 func_data in
  length segmentation = length (rows func_data) →
  n ≠ 0%nat →
  is_argsort (newsegm_of seg) order →
  ((800 < n)%nat → same_shape detrended data →
     ∃ c picked,
       fmricarpetplot clean argsort func_data segmentation false map_range tr = Ok c ∧
       take order (rows detrended) = Ok picked ∧
       rows (image c) = stride2 <$> picked ∧
       (∀ k row j, rows (image c) !! k = Some row →
          ∃ r, picked !! k = Some r ∧ row !! j = r !! (2 * j)%nat) ∧
       shape1 (image c) = Nat.div2 (S n) ∧
       (n ≤ 2 * shape1 (image c) ≤ n + 1)%nat ∧
       Forall (λ j, j < shape1 (image c))%nat (xticks c) ∧
       (∀ t, tr = Some t →
          xticklabels c = (λ j, t * Qc_of_nat (2 * j))%Qc <$> xticks c)) ∧
  (∃ o picked,
     carpet_order clean argsort func_data segmentation (default 1%Qc tr) = Ok o ∧
     take order (rows data) = Ok picked ∧
     carpet_image true o = Ok (Arr2 n picked, "Spectral_r", None) ∧
     length picked = length seg ∧
     (wf_arr2 func_data → Forall (λ r, length r = n) picked) ∧
     (tr = None →
        ∃ c, fmricarpetplot clean argsort func_data segmentation true map_range tr
               = Ok c ∧
             image c = Arr2 n picked)).
Proof.
  intros seg data detrended order n Hlen Hn Hsort.
  assert (length (rows data) = length (newsegm_of seg)) as Hdata.
  { cbn. rewrite newsegm_of_length. unfold seg.
    rewrite <-(labelled_fst segmentation (rows func_data)) by done.
    by rewrite !length_fmap. }
  pose proof (is_argsort_range _ _ Hsort) as Hrange.
  split.
  - intros Hlong Hshape. pose proof Hshape as [Hcols Hrows].
    assert (Forall (λ i, i < length (rows detrended))%nat order) as Hr
      by by rewrite Hrows, Hdata.
    eexists _, (omap (λ i, rows detrended !! i) order).
    split; [apply fmricarpetplot_value; try done; intros H; discriminate H|].
    cbn [image xticks xticklabels]. fold seg data detrended order.
    rewrite Hcols. cbn [shape1 data]. fold n.
    rewrite bool_decide_eq_true_2 by done. cbn [stride2_cols rows shape1].
    split; [by apply take_omap|]. split; [done|]. split.
    { intros k row j. rewrite list_lookup_fmap.
      destruct (_ !! k) as [r|]; [|done]. intros [= <-].
      exists r. split; [done|]. apply stride2_lookup. }
    split; [done|]. split; [apply div2_S_bounds|].
    split; [apply range_step_lt, xtick_interval_pos|].
    intros t ->. rewrite <-list_fmap_compose. apply list_fmap_ext.
    intros _ j _. cbn. apply Qc_of_nat_double.
  - assert (Forall (λ i, i < length (rows data))%nat order) as Hr by by rewrite Hdata.
    eexists _, (omap (λ i, rows data !! i) order).
    split; [by apply carpet_order_Ok|]. fold seg data detrended order.
    split; [by apply take_omap|].
    split; [by rewrite carpet_image_stat|]. split.
    { erewrite take_length; [|by apply take_omap].
      destruct Hsort as [Hp _]. by rewrite Hp, length_seq, newsegm_of_length. }
    split.
    { intros Hwf. apply (wf_picked_rows data order).
      by apply wf_labelled_rows. }
    intros ->.
    destruct (stat_without_interval clean argsort func_data segmentation map_range)
      as (c & Hc & _ & Hrows & Hcols & _); [done..|].
    exists c. split; [done|]. destruct (image c) as [m rs]. cbn in Hrows, Hcols.
    by rewrite Hrows, Hcols.
Qed.
End decimation.

Lemma C5_long_raw_series_halved_witness :
  let tr := Some (Qc_of_Z 2) in
  let seg := positive_labels [5; 150] in
  let data := Arr2 (shape1 long_volume) (labelled [5; 150] (rows long_volume)).*2 in
  let detrended := clean_id (default 1%Qc tr) data in
  let order := argsort_ins (newsegm_of seg) in
  let n := shape1 long_volume in
  ((800 < n)%nat → same_shape detrended data →
     ∃ c picked,
       fmricarpetplot clean_id argsort_ins long_volume [5; 150] false None tr = Ok c ∧
       take order (rows detrended) = Ok picked ∧
       rows (image c) = stride2 <$> picked ∧
       (∀ k row j, rows (image c) !! k = Some row →
          ∃ r, picked !! k = Some r ∧ row !! j = r !! (2 * j)%nat) ∧
       shape1 (image c) = Nat.div2 (S n) ∧
       (n ≤ 2 * shape1 (image c) ≤ n + 1)%nat ∧
       Forall (λ j, j < shape1 (image c))%nat (xticks c) ∧
       (∀ t, tr = Some t →
          xticklabels c = (λ j, t * Qc_of_nat (2 * j))%Qc <$> xticks c)) ∧
  (∃ o picked,
     carpet_order clean_id argsort_ins long_volume [5; 150] (default 1%Qc tr) = Ok o ∧
     take order (rows data) = Ok picked ∧
     carpet_image true o = Ok (Arr2 n picked, "Spectral_r", None) ∧
     length picked = length seg ∧
     (wf_arr2 long_volume → Forall (λ r, length r = n) picked) ∧
     (tr = None →
        ∃ c, fmricarpetplot clean_id argsort_ins long_volume [5; 150] true None tr
               = Ok c ∧
             image c = Arr2 n picked)).
Proof.
  apply (C5_long_raw_series_halved clean_id argsort_ins long_volume [5; 150] None
           (Some (Qc_of_Z 2))).
  - reflexivity.
  - cbn. lia.
  - apply argsort_ins_is_argsort.
Defined.

Example long_raw_series_at_concrete_input :
  ∃ c, fmricarpetplot clean_id argsort_ins long_volume [5; 150] false None
         (Some (Qc_of_Z 2)) = Ok c ∧
       shape1 (image c) = 401%nat ∧
       xticks c = [0; 40; 80; 120; 160; 200; 240; 280; 320; 360; 400]%nat ∧
       xticklabels c =
         Qc_of_Z <$> [0; 160; 320; 480; 640; 800; 960; 1120; 1280; 1440; 1600].
Proof.
  eexists. split; [vm_compute; reflexivity|]. cbn [image shape1 xticks xticklabels].
  repeat split. apply (bool_decide_unpack _). vm_compute. reflexivity.
Qed.

(** * The strip beside the image *)

Lemma omap_lookup_in_range {T} (a : list T) (order : list nat) k i :
  Forall (λ i, i < length a)%nat order →
  order !! k = Some i → omap (λ i, a !! i) order !! k = a !! i.
Proof.
  intros Hr. revert k. induction Hr as [|i0 order Hi0 _ IH]; intros k Hk.
  { by rewrite lookup_nil in Hk. }
  cbn. destruct (lookup_lt_is_Some_2 a i0 Hi0) as [x Hx]. rewrite Hx.
  destruct k as [|k]; cbn in Hk |- *; [by simplify_eq|]. by apply IH.
Qed.

Section strip_extras.
Context {A : Type}.
Variable clean : Qc → arr2 A → arr2 A.
Variable argsort : list Z → list nat.

(** X8: in a returning call the image rows are the rows of the source
    array (raw data for a statistical map, detrended data otherwise, with
    every second sample when decimated) rearranged, none lost and none
    shown twice, and the strip runs beside them: entry [k] of the strip is
    the rank of the voxel whose row is displayed at row [k].  The strip
    holds the rank of every masked voxel once, in ascending order. *)
Theorem X8_strip_aligned_rows_rearranged func_data segmentation (stat : bool)
    map_range (tr : option Qc) :
  let seg := positive_labels segmentation in
  let data := Arr2 (shape1 func_data) (labelled segmentation (rows func_data)).*2 in
  let detrended := clean (default 1%Qc tr) data in
  let src := if stat then data else detrended in
  let order := argsort (newsegm_of seg) in
  let long := bool_decide (stat = false ∧ (800 < shape1 func_data)%nat) in
  let shown (r : list A) := if long then stride2 r else r in
  length segmentation = length (rows func_data) →
  shape1 func_data ≠ 0%nat →
  is_argsort (newsegm_of seg) order →
  same_shape detrended data →
  (stat = true → tr = None) →
  ∃ c, fmricarpetplot clean argsort func_data segmentation stat map_range tr = Ok c ∧
       rows (image c) ≡ₚ shown <$> rows src ∧
       strip c ≡ₚ newsegm_of seg ∧
       StronglySorted Z.le (strip c) ∧
       length (strip c) = length (rows (image c)) ∧
       ∀ k i, order !! k = Some i →
         strip c !! k = newsegm_of seg !! i ∧
         rows (image c) !! k = shown <$> rows src !! i ∧
         is_Some (rows src !! i).
Proof.
  intros seg data detrended src order long shown Hlen Hn Hsort Hshape Hstat.
  eexists. split; [by apply fmricarpetplot_value|]. cbn [strip image].
  fold seg data detrended src order. destruct Hshape as [Hcols Hrows]. rewrite Hcols.
  cbn [shape1 data]. fold long. pose proof Hsort as [Hp Hs].
  pose proof (is_argsort_range _ _ Hsort) as Hrange.
  assert (length (rows src) = length (newsegm_of seg)) as Hsrc.
  { rewrite newsegm_of_length. unfold src.
    destruct stat; rewrite ?Hrows; cbn; unfold seg;
      rewrite <-(labelled_fst segmentation (rows func_data)) by done;
      by rewrite !length_fmap. }
  assert (Forall (λ i, i < length (rows src))%nat order) as Hrange'
    by by rewrite Hsrc.
  assert (omap (λ i, rows src !! i) order ≡ₚ rows src) as Hperm.
  { apply omap_lookup_perm. by rewrite Hp, Hsrc. }
  assert (rows (if long
                then stride2_cols (Arr2 (shape1 src) (omap (λ i, rows src !! i) order))
                else Arr2 (shape1 src) (omap (λ i, rows src !! i) order)) =
          shown <$> omap (λ i, rows src !! i) order) as Himg.
  { unfold shown. destruct long; cbn [rows stride2_cols]; [done|].
    by rewrite list_fmap_id. }
  rewrite Himg. split; [by rewrite Hperm|].
  split; [by apply omap_lookup_perm|]. split; [done|]. split.
  { rewrite length_fmap.
    erewrite (take_length order (newsegm_of seg)); [|by apply take_omap].
    by erewrite (take_length order (rows src)); [|by apply take_omap]. }
  intros k i Hk. split; [by apply omap_lookup_in_range|].
  rewrite list_lookup_fmap, (omap_lookup_in_range (rows src) order k i) by done.
  split; [done|]. apply lookup_lt_is_Some_2.
  rewrite Forall_forall in Hrange'. apply Hrange'. by eapply list_elem_of_lookup_2.
Qed.
End strip_extras.

Lemma X8_strip_aligned_rows_rearranged_witness :
  let tr := Some (Qc_of_Z 2) in
  let seg := positive_labels one_voxel_per_band in
  let data := Arr2 (shape1 volume_4x4x4x50)
                (labelled one_voxel_per_band (rows volume_4x4x4x50)).*2 in
  let detrended := clean_id (default 1%Qc tr) data in
  let src := if false then data else detrended in
  let order := argsort_ins (newsegm_of seg) in
  let long := bool_decide (false = false ∧ (800 < shape1 volume_4x4x4x50)%nat) in
  let shown (r : list Z) := if long then stride2 r else r in
  ∃ c, fmricarpetplot clean_id argsort_ins volume_4x4x4x50 one_voxel_per_band false
         None tr = Ok c ∧
       rows (image c) ≡ₚ shown <$> rows src ∧
       strip c ≡ₚ newsegm_of seg ∧
       StronglySorted Z.le (strip c) ∧
       length (strip c) = length (rows (image c)) ∧
       ∀ k i, order !! k = Some i →
         strip c !! k = newsegm_of seg !! i ∧
         rows (image c) !! k = shown <$> rows src !! i ∧
         is_Some (rows src !! i).
Proof.
  apply (X8_strip_aligned_rows_rearranged clean_id argsort_ins volume_4x4x4x50
           one_voxel_per_band false None (Some (Qc_of_Z 2))).
  - reflexivity.
  - cbn. lia.
  - apply argsort_ins_is_argsort.
  - split; reflexivity.
  - intros H. discriminate H.
Defined.

Example strip_and_rows_at_concrete_input :
  ∃ c, fmricarpetplot clean_id argsort_ins volume_4x4x4x50 one_voxel_per_band false
         None (Some (Qc_of_Z 2)) = Ok c ∧
       argsort_ins (newsegm_of (positive_labels one_voxel_per_band)) = [2; 3; 1; 0]%nat ∧
       newsegm_of (positive_labels one_voxel_per_band) = [3; 2; 0; 1] ∧
       strip c = [0; 1; 2; 3] ∧
       rows (image c) =
         [replicate 50 32; replicate 50 63; replicate 50 31; replicate 50 10].
Proof.
  eexists. split; [vm_compute; reflexivity|]. cbn [strip image rows].
  repeat split; vm_compute; reflexivity.
Qed.

(** * [confoundplot] and the confound loop, with the failing call *)








Example confound_loop_stops_at_empty_series :
  let ps := [([Qc_of_Z 1; Qc_of_Z 3], Descriptor (Some "FD") None (Some false) (Some 0%nat));
             ([Qc_of_Z 6], Descriptor None None None None);
             ([Qc_of_Z 4], Descriptor None None None (Some 0%nat));
             ([], Descriptor None None None (Some 0%nat));
             ([Qc_of_Z 5], Descriptor None None None (Some 0%nat))] in
  (confound_loop None ps confound_store).2 = Raise ValueError ∧
  heap (confound_loop None ps confound_store).1 !! 0%nat =
    Some [Qc_of_Z 4; Qc_of_Z 2; Qc_of_Z 7] ∧
  heap (confound_loop None (firstn 3 ps) confound_store).1 !! 0%nat =
    Some [Qc_of_Z 4; Qc_of_Z 2; Qc_of_Z 7] ∧
  (confound_loop None (firstn 3 ps) confound_store).2 = Ok ().
Proof.
  cbn zeta. split; [vm_compute; reflexivity|].
  split; [apply (bool_decide_unpack _); vm_compute; reflexivity|].
  split; [apply (bool_decide_unpack _); vm_compute; reflexivity|].
  vm_compute. reflexivity.
Qed.



(** * The x axis of [spikesplot] *)

Lemma elem_of_range_step n k x :
  (1 ≤ k)%nat → x ∈ range_step n k ↔ (x < n)%nat ∧ (x mod k = 0)%nat.
Proof.
  intros Hk. unfold range_step. rewrite list_elem_of_fmap. split.
  - intros (j & -> & [_ Hj]%elem_of_seq). split.
    + pose proof (Nat.Div0.mul_div_le (n + k - 1) k). nia.
    + by apply Nat.Div0.mod_mul.
  - intros [Hx Hm]. exists (x / k)%nat.
    pose proof (Nat.div_mod_eq x k) as Hd. rewrite Hm in Hd. split; [lia|].
    apply elem_of_seq. split; [lia|].
    cut (1 + x / k ≤ (n + k - 1) / k)%nat; [lia|].
    apply Nat.div_le_lower_bound; [lia|]. nia.
Qed.

(** X16: the x axis of a spike plot that shows it.  The ticks are
    exactly the multiples of 20 from 0 up to, but not including, the last
    frame, followed by the last frame itself, in strictly ascending order,
    so the last frame is never listed twice; the axis is always labelled
    'time (s)', the 'time (frame #)' branch being unreachable, and the
    tick labels are the ticks times the sampling interval, 1 when none is
    given.  A plot that hides the axis has no tick at all. *)
Theorem X16_spikes_xaxis (ntsteps : nat) (t : option Qc) :
  let last := Z.of_nat ntsteps - 1 in
  (∃ ticks,
     spikes_xaxis ntsteps t false =
       ((0, last), ticks ++ [last], Some "time (s)",
        Some ((λ x, default 1%Qc t * Qc_of_Z x)%Qc <$> ticks ++ [last])) ∧
     (∀ x, x ∈ ticks ↔ 0 ≤ x < last ∧ (20 | x)) ∧
     StronglySorted Z.lt (ticks ++ [last])) ∧
  spikes_xaxis ntsteps t true = ((0, last), [], None, None).
Proof.
  cbn zeta. split; [|done]. unfold spikes_xaxis. cbn [negb].
  eexists. split; [reflexivity|].
  set (last := Z.of_nat ntsteps - 1).
  assert (∀ x, x ∈ Z.of_nat <$> range_step (Z.to_nat last) 20 ↔
               0 ≤ x < last ∧ (20 | x)) as Hticks.
  { intros x. rewrite list_elem_of_fmap. split.
    - intros (j & -> & [Hj Hm]%elem_of_range_step); [|lia]. split; [lia|].
      apply Nat.Div0.div_exact in Hm. exists (Z.of_nat (j / 20)). lia.
    - intros [Hx [m Hm]]. exists (Z.to_nat x). split; [lia|].
      apply elem_of_range_step; [lia|]. split; [lia|].
      replace (Z.to_nat x) with (Z.to_nat m * 20)%nat by lia.
      apply Nat.Div0.mod_mul. }
  split; [done|]. apply StronglySorted_app_2.
  - intros x y Hx ->%list_elem_of_singleton. apply Hticks in Hx. lia.
  - apply (StronglySorted_fmap _ lt); [lia|]. apply range_step_sorted. lia.
  - repeat constructor.
Qed.

Example spikes_xaxis_at_concrete_input :
  (spikes_xaxis 50 None false).1.1.2 = [0; 20; 40; 49] ∧
  (spikes_xaxis 41 None false).1.1.2 = [0; 20; 40] ∧
  (spikes_xaxis 1 None false).1.1.2 = [0] ∧
  (spikes_xaxis 0 None false).1.1.2 = [-1].
Proof. repeat split; vm_compute; reflexivity. Qed.
